(** * Mixed-Memory: extraction merge, graph assembly, chunking and entity
    resolution

    A shallow embedding of the pure cores of
      - [neo4j_book2graph.py]: [split_text], [extract_graph_from_chunk],
        [merge_graph_data];
      - [build_graphs.py]: [build_r_graph], [build_l_dict];
      - [neo4j_gpt_qa.py]: [cosine_similarity], [find_best_matching_node].

    Conventions.  A Python [dict] whose iteration order is observed is an
    association list updated in place ([PyDict]).  A JSON object with a
    fixed schema is a record; a key that may be absent is an [option] field,
    so that [d.get(k, default)] and [d[k]] (which raises [KeyError]) can be
    told apart.  A raised exception is the [Raise] branch of [result].
    Strings are sequences of code points below 256.  The completion
    service, the embedding service and [json.loads] are parameters of the
    functions that call them; [networkx] is modelled as far as the
    assembler uses it; similarities are computed in binary64, on primitive
    floats. *)

From Stdlib Require Import Floats.
From Stdlib Require Import List String Ascii Bool Arith ZArith Lia.
Import ListNotations.

Local Open Scope string_scope.
Local Open Scope list_scope.

Set Implicit Arguments.
Set Warnings "-inexact-float".

(* ------------------------------------------------------------------ *)
(** ** Exceptions *)

Inductive exn : Type :=
| KeyError (key : string)
| ValueError (msg : string).

Inductive result (A : Type) : Type :=
| Ok (a : A)
| Raise (e : exn).

Arguments Ok {A} a.
Arguments Raise {A} e.

Definition bind {A B : Type} (m : result A) (k : A -> result B) : result B :=
  match m with
  | Ok a => k a
  | Raise e => Raise e
  end.

Declare Scope result_scope.
Delimit Scope result_scope with result.
Notation "x <- m ;; k" := (bind m (fun x => k))
  (at level 61, m at next level, right associativity) : result_scope.
Local Open Scope result_scope.

(** [d[k]] on an optional field. *)
Definition subscript {A : Type} (key : string) (field : option A) : result A :=
  match field with
  | Some a => Ok a
  | None => Raise (KeyError key)
  end.

(** [d.get(k, default)] on an optional field. *)
Definition get_default {A : Type} (field : option A) (default : A) : A :=
  match field with
  | Some a => a
  | None => default
  end.

(* ------------------------------------------------------------------ *)
(** ** Insertion-ordered dictionaries with string keys *)

Module PyDict.
Section Dict.
Variable V : Type.

Definition t := list (string * V).

Definition empty : t := [].

(** [d.get(k)] *)
Fixpoint get (k : string) (d : t) : option V :=
  match d with
  | [] => None
  | (k', v) :: d' => if String.eqb k k' then Some v else get k d'
  end.

(** [k in d] *)
Definition mem (k : string) (d : t) : bool :=
  match get k d with Some _ => true | None => false end.

(** [d[k] = v]: an existing key keeps its position, a new key goes last. *)
Fixpoint set (k : string) (v : V) (d : t) : t :=
  match d with
  | [] => [(k, v)]
  | (k', v') :: d' =>
      if String.eqb k k' then (k', v) :: d' else (k', v') :: set k v d'
  end.

Definition keys (d : t) : list string := map fst d.

(** [list(d.values())] *)
Definition values (d : t) : list V := map snd d.

(** [for (k, v) in kvs: d[k] = v] *)
Definition update_all (kvs : list (string * V)) (d : t) : t :=
  fold_left (fun acc kv => set (fst kv) (snd kv) acc) kvs d.

End Dict.
Arguments empty {V}.
End PyDict.

(** The distinct elements of a list, each at its first occurrence;
    [seen] holds the elements already emitted. *)
Fixpoint first_occurrences (seen l : list string) : list string :=
  match l with
  | [] => []
  | x :: l' =>
      if existsb (String.eqb x) seen then first_occurrences seen l'
      else x :: first_occurrences (x :: seen) l'
  end.

(** The last pair of an association list with the given key. *)
Fixpoint last_binding {V : Type} (k : string) (kvs : list (string * V))
  : option V :=
  match kvs with
  | [] => None
  | (k', v) :: kvs' =>
      match last_binding k kvs' with
      | Some w => Some w
      | None => if String.eqb k k' then Some v else None
      end
  end.

(* ------------------------------------------------------------------ *)
(** ** Candidate graphs ([neo4j_book2graph.py]) *)

Record node : Type := {
  node_id : option string;                        (* "id" *)
  node_labels : list string;                      (* "labels" *)
  node_properties : PyDict.t string               (* "properties" *)
}.

Record relationship : Type := {
  start_node_id : string;
  end_node_id : string;
  rel_type : string;
  rel_properties : PyDict.t string
}.

Record graph : Type := {
  nodes : option (list node);                     (* "nodes" *)
  relationships : option (list relationship)      (* "relationships" *)
}.

(** The inner loop of [merge_graph_data]:
    [for node in graph.get("nodes", []): merged_nodes[node["id"]] = node]. *)
Fixpoint merge_nodes (ns : list node) (merged_nodes : PyDict.t node)
  : result (PyDict.t node) :=
  match ns with
  | [] => Ok merged_nodes
  | n :: ns' =>
      i <- subscript "id" (node_id n) ;;
      merge_nodes ns' (PyDict.set i n merged_nodes)
  end.

(** The outer loop of [merge_graph_data] over [graph_list]. *)
Fixpoint merge_loop (graph_list : list graph)
    (merged_nodes : PyDict.t node) (merged_relationships : list relationship)
  : result (PyDict.t node * list relationship) :=
  match graph_list with
  | [] => Ok (merged_nodes, merged_relationships)
  | g :: rest =>
      merged_nodes' <- merge_nodes (get_default (nodes g) []) merged_nodes ;;
      merge_loop rest merged_nodes'
        (merged_relationships ++ get_default (relationships g) [])
  end.

Definition merge_graph_data (graph_list : list graph) : result graph :=
  st <- merge_loop graph_list PyDict.empty [] ;;
  Ok {| nodes := Some (PyDict.values (fst st));
        relationships := Some (snd st) |}.

(** All node records of the inputs, in the order the merge visits them. *)
Definition all_nodes (graph_list : list graph) : list node :=
  flat_map (fun g => get_default (nodes g) []) graph_list.

(** All relationships of the inputs, in order. *)
Definition all_relationships (graph_list : list graph) : list relationship :=
  flat_map (fun g => get_default (relationships g) []) graph_list.

(** Every node carries an ["id"]. *)
Definition has_id (n : node) : bool :=
  match node_id n with Some _ => true | None => false end.

Definition well_formed (graph_list : list graph) : Prop :=
  forallb has_id (all_nodes graph_list) = true.

Definition id_of (n : node) : string := get_default (node_id n) "".

Definition keyed (ns : list node) : list (string * node) :=
  map (fun n => (id_of n, n)) ns.

(** The record a mapping keyed by id holds for [i]. *)
Definition lookup_node (i : string) (ns : list node) : option node :=
  find (fun n => String.eqb i (id_of n)) ns.

(** The last record with id [i] in a sequence of records. *)
Definition last_seen (i : string) (ns : list node) : option node :=
  last_binding i (keyed ns).

(** Every pair of the dictionary binds a record to its own id. *)
Definition self_keyed (d : PyDict.t node) : Prop :=
  Forall (fun kv => id_of (snd kv) = fst kv) d.

(* ------------------------------------------------------------------ *)
(** ** Text ([str]) as a sequence of characters *)

Definition text : Type := list ascii.

Definition newline : ascii := ascii_of_nat 10.

(** The paragraph separator ["\n\n"]. *)
Definition paragraph_sep : text := [newline; newline].

(** [c.isspace()] for the code points below 256. *)
Definition is_space (c : ascii) : bool :=
  let n := nat_of_ascii c in
  (((9 <=? n) && (n <=? 13)) || ((28 <=? n) && (n <=? 32))
   || (n =? 133) || (n =? 160))%nat.

Fixpoint lstrip (s : text) : text :=
  match s with
  | [] => []
  | c :: s' => if is_space c then lstrip s' else s
  end.

Definition rstrip (s : text) : text := rev (lstrip (rev s)).

(** [s.strip()] *)
Definition strip (s : text) : text := rstrip (lstrip s).

(** The truth value of a string: non-empty. *)
Definition truthy (s : text) : bool :=
  match s with [] => false | _ :: _ => true end.

(** [s.split("\n\n")] as a first piece and the remaining pieces: the
    separator is searched left to right, matches do not overlap. *)
Fixpoint split_sep (s : text) : text * list text :=
  match s with
  | [] => ([], [])
  | c :: s' =>
      match s' with
      | [] => ([c], [])
      | c' :: s'' =>
          if Ascii.eqb c newline && Ascii.eqb c' newline
          then ([], let (p, ps) := split_sep s'' in p :: ps)
          else let (p, ps) := split_sep s' in (c :: p, ps)
      end
  end.

Definition split_paragraphs (s : text) : list text :=
  let (p, ps) := split_sep s in p :: ps.

(** The loop of [split_text], threading [chunks] and [current_chunk]. *)
Fixpoint split_loop (paragraphs : list text) (max_tokens : Z)
    (chunks : list text) (current_chunk : text) : list text * text :=
  match paragraphs with
  | [] => (chunks, current_chunk)
  | para :: rest =>
      if (Z.of_nat (List.length current_chunk) + Z.of_nat (List.length para)
          <? max_tokens)%Z
      then split_loop rest max_tokens chunks
             (current_chunk ++ para ++ paragraph_sep)
      else
        let chunks' :=
          if truthy (strip current_chunk)
          then chunks ++ [strip current_chunk] else chunks in
        split_loop rest max_tokens chunks' (para ++ paragraph_sep)
  end.

Definition split_text (s : text) (max_tokens : Z) : list text :=
  let (chunks, current_chunk) :=
    split_loop (split_paragraphs s) max_tokens [] [] in
  if truthy (strip current_chunk)
  then chunks ++ [strip current_chunk] else chunks.

(** The paragraphs, each followed by the separator. *)
Definition with_separators (paragraphs : list text) : text :=
  flat_map (fun p => p ++ paragraph_sep) paragraphs.

(** [sep.join(pieces)] *)
Fixpoint join (sep : text) (pieces : list text) : text :=
  match pieces with
  | [] => []
  | [p] => p
  | p :: rest => p ++ sep ++ join sep rest
  end.

(** A text made of whitespace only (the empty text included). *)
Definition blank (s : text) : bool := forallb is_space s.

(** All gaps are whitespace. *)
Definition all_blank (gaps : list text) : bool := forallb blank gaps.

(** [g1 ++ c1 ++ g2 ++ c2 ++ ...]: every chunk preceded by its gap. *)
Fixpoint weave (gaps chunks : list text) : text :=
  match gaps, chunks with
  | g :: gaps', c :: chunks' => g ++ c ++ weave gaps' chunks'
  | _, _ => []
  end.

(** The text with every whitespace character removed. *)
Definition squeeze (s : text) : text := filter (fun c => negb (is_space c)) s.

(* ------------------------------------------------------------------ *)
(** ** Repeated extraction over one chunk ([extract_graph_from_chunk]) *)

(** What the function prints, as far as the passes are concerned. *)
Inductive event : Type :=
| PassStarted (pass : nat)
| ParseError (pass : nat) (raw : text)
| NoSuccessfulParses.

Definition empty_graph : graph :=
  {| nodes := Some []; relationships := Some [] |}.

Fixpoint starts_with (prefix s : text) : bool :=
  match prefix, s with
  | [], _ => true
  | _ :: _, [] => false
  | a :: prefix', b :: s' => Ascii.eqb a b && starts_with prefix' s'
  end.

Definition ends_with (suffix s : text) : bool :=
  starts_with (rev suffix) (rev s).

Definition fence_json : text := list_ascii_of_string "```json".
Definition fence : text := list_ascii_of_string "```".

(** The clean-up of the message content before parsing. *)
Definition unfence (content : text) : text :=
  let result_text := strip content in
  let result_text :=
    if starts_with fence_json result_text
    then strip (skipn (List.length fence_json) result_text) else result_text in
  if ends_with fence result_text
  then strip (firstn (List.length result_text - 3) result_text)
  else result_text.

Section Extraction.
(** The completion service: the message content returned for a chunk at
    a given call; successive calls may answer differently. *)
Variable completion : text -> nat -> text.
(** [json.loads]; [None] stands for [JSONDecodeError]. *)
Variable json_loads : text -> option graph.

(** The loop over [range(num_repeats)], threading [all_graphs] and the
    printed events. *)
Fixpoint extract_loop (chunk_text : text) (passes : list nat)
    (all_graphs : list graph) (log : list event)
  : list graph * list event :=
  match passes with
  | [] => (all_graphs, log)
  | i :: rest =>
      let result_text := unfence (completion chunk_text i) in
      match json_loads result_text with
      | Some graph_data =>
          extract_loop chunk_text rest (all_graphs ++ [graph_data])
            (log ++ [PassStarted i])
      | None =>
          extract_loop chunk_text rest all_graphs
            (log ++ [PassStarted i; ParseError i result_text])
      end
  end.

Definition extract_graph_from_chunk (chunk_text : text) (num_repeats : Z)
  : result graph * list event :=
  let (all_graphs, log) :=
    extract_loop chunk_text (seq 0 (Z.to_nat num_repeats)) [] [] in
  match all_graphs with
  | [] => (Ok empty_graph, log ++ [NoSuccessfulParses])
  | _ :: _ => (merge_graph_data all_graphs, log)
  end.

(** The parsed response of one pass, if it parses. *)
Definition parsed_pass (chunk_text : text) (i : nat) : option graph :=
  json_loads (unfence (completion chunk_text i)).

(** What one pass adds to the log. *)
Definition pass_events (chunk_text : text) (i : nat) : list event :=
  match parsed_pass chunk_text i with
  | Some _ => [PassStarted i]
  | None => [PassStarted i; ParseError i (unfence (completion chunk_text i))]
  end.

Definition pass_fails (chunk_text : text) (i : nat) : bool :=
  match parsed_pass chunk_text i with Some _ => false | None => true end.

(** The candidate graphs of the passes that parse, in pass order. *)
Definition parsed_passes (chunk_text : text) (num_repeats : Z)
  : list graph :=
  flat_map
    (fun i => match parsed_pass chunk_text i with
              | Some g => [g] | None => [] end)
    (seq 0 (Z.to_nat num_repeats)).
End Extraction.

(** The passes a log reports as started, and those it reports as failed to
    parse. *)
Definition started_passes (log : list event) : list nat :=
  flat_map (fun e => match e with PassStarted i => [i] | _ => [] end) log.

Definition failed_passes (log : list event) : list nat :=
  flat_map (fun e => match e with ParseError i _ => [i] | _ => [] end) log.

(* ------------------------------------------------------------------ *)
(** ** The R/L extraction output ([build_graphs.py]) *)

Record r_fact : Type := {
  fact_time : option string;                      (* "time" *)
  fact_relationship : option string;              (* "relationship" *)
  fact_event : option string                      (* "event" *)
}.

Record r_entry : Type := {
  E1 : option string;                             (* "E1" *)
  E2 : option string;                             (* "E2" *)
  R_facts : option (list r_fact)                  (* "R" *)
}.

Record l_entry : Type := {
  Label : option string;                          (* "Label" *)
  Entity : option string;                         (* "Entity" *)
  entry_time : option string                      (* "time" *)
}.

Record extraction : Type := {
  data_R : option (list r_entry);                 (* "R" *)
  data_L : option (list l_entry)                  (* "L" *)
}.

(** The part of [networkx.MultiDiGraph] that [build_r_graph] uses.  Nodes
    are a dictionary from node to attribute dictionary; the edges are kept
    in the order they were added, each with the integer key that tells
    parallel edges apart. *)
Module nx.
Record edge : Type := {
  source : string;
  target : string;
  key : nat;
  data : PyDict.t string
}.

Record MultiDiGraph : Type := {
  node : PyDict.t (PyDict.t string);
  edges : list edge
}.

Definition empty : MultiDiGraph := {| node := []; edges := [] |}.

(** [G.add_node(n, **attr)]: a new node gets [attr], a known node has its
    attribute dictionary updated with [attr]. *)
Definition add_node (n : string) (attr : PyDict.t string)
    (G : MultiDiGraph) : MultiDiGraph :=
  let old := get_default (PyDict.get n (node G)) [] in
  {| node := PyDict.set n (PyDict.update_all attr old) (node G);
     edges := edges G |}.

Definition joins (u v : string) (e : edge) : bool :=
  String.eqb u (source e) && String.eqb v (target e).

(** The keys in use between [u] and [v]. *)
Definition keydict (u v : string) (G : MultiDiGraph) : list nat :=
  map key (filter (joins u v) (edges G)).

(** [while key in keydict: key += 1] *)
Fixpoint next_free (fuel k : nat) (used : list nat) : nat :=
  match fuel with
  | O => k
  | S fuel' =>
      if existsb (Nat.eqb k) used then next_free fuel' (S k) used else k
  end.

(** [G.new_edge_key(u, v)] *)
Definition new_edge_key (u v : string) (G : MultiDiGraph) : nat :=
  let used := keydict u v G in
  next_free (S (List.length used)) (List.length used) used.

(** [G.add_edge(u, v, **attr)]: missing endpoints are added without
    attributes; the edge gets a fresh key; were the key in use, the data
    of that edge would be updated instead. *)
Definition add_edge (u v : string) (attr : PyDict.t string)
    (G : MultiDiGraph) : MultiDiGraph :=
  let node1 :=
    if PyDict.mem u (node G) then node G else PyDict.set u [] (node G) in
  let node2 :=
    if PyDict.mem v node1 then node1 else PyDict.set v [] node1 in
  let k := new_edge_key u v G in
  let same e := joins u v e && Nat.eqb k (key e) in
  if existsb same (edges G)
  then {| node := node2;
          edges := map (fun e =>
                     if same e
                     then {| source := source e; target := target e;
                             key := key e;
                             data := PyDict.update_all attr (data e) |}
                     else e) (edges G) |}
  else {| node := node2;
          edges := edges G ++
                   [{| source := u; target := v; key := k;
                       data := PyDict.update_all attr [] |}] |}.

Definition has_node (n : string) (G : MultiDiGraph) : bool :=
  PyDict.mem n (node G).

Definition number_of_edges (G : MultiDiGraph) : nat := List.length (edges G).
End nx.

(** One observation of a label: [{"label": ..., "time": ...}]. *)
Record label_entry : Type := {
  label : string;
  time : string
}.

(** [MemoryGraphBuilder], as far as the assembler reads and writes it. *)
Record builder : Type := {
  graph_data : option extraction;
  R_graph_nx : option nx.MultiDiGraph;
  L_dict : option (PyDict.t (list label_entry))
}.

Definition entity_tag : PyDict.t string := [("type"%string, "entity"%string)].

(** The keyword arguments of [G.add_edge] for one fact. *)
Definition fact_attr (r : r_fact) : PyDict.t string :=
  [("time"%string, get_default (fact_time r) ""%string);
   ("relationship"%string, get_default (fact_relationship r) ""%string);
   ("event"%string, get_default (fact_event r) ""%string)].

(** [for r in entry.get("R", []): ...] *)
Fixpoint add_facts (e1 e2 : string) (facts : list r_fact)
    (G : nx.MultiDiGraph) : nx.MultiDiGraph :=
  match facts with
  | [] => G
  | r :: rest =>
      let G1 := nx.add_node e1 entity_tag G in
      let G2 := nx.add_node e2 entity_tag G1 in
      let G3 := nx.add_edge e1 e2 (fact_attr r) G2 in
      add_facts e1 e2 rest G3
  end.

(** [for entry in builder.graph_data["R"]: ...] *)
Fixpoint build_r_loop (entries : list r_entry) (G : nx.MultiDiGraph)
  : result nx.MultiDiGraph :=
  match entries with
  | [] => Ok G
  | entry :: rest =>
      e1 <- subscript "E1" (E1 entry) ;;
      e2 <- subscript "E2" (E2 entry) ;;
      build_r_loop rest (add_facts e1 e2 (get_default (R_facts entry) []) G)
  end.

(** [build_r_graph]: the graph returned and the builder afterwards. *)
Definition build_r_graph (b : builder) : result (nx.MultiDiGraph * builder) :=
  match graph_data b with
  | None => Ok (nx.empty, b)
  | Some d =>
      match data_R d with
      | None => Ok (nx.empty, b)
      | Some entries =>
          G <- build_r_loop entries nx.empty ;;
          Ok (G, {| graph_data := graph_data b;
                    R_graph_nx := Some G;
                    L_dict := L_dict b |})
      end
  end.

(** [for entry in builder.graph_data["L"]: ...] *)
Fixpoint build_l_loop (entries : list l_entry)
    (d : PyDict.t (list label_entry)) : result (PyDict.t (list label_entry)) :=
  match entries with
  | [] => Ok d
  | entry :: rest =>
      lbl <- subscript "Label" (Label entry) ;;
      entity <- subscript "Entity" (Entity entry) ;;
      tm <- subscript "time" (entry_time entry) ;;
      let d1 := if PyDict.mem entity d then d else PyDict.set entity [] d in
      l <- subscript entity (PyDict.get entity d1) ;;
      build_l_loop rest
        (PyDict.set entity (l ++ [{| label := lbl; time := tm |}]) d1)
  end.

(** [build_l_dict]: the dictionary returned and the builder afterwards. *)
Definition build_l_dict (b : builder)
  : result (PyDict.t (list label_entry) * builder) :=
  match graph_data b with
  | None => Ok ([], b)
  | Some d =>
      match data_L d with
      | None => Ok ([], b)
      | Some entries =>
          dict <- build_l_loop entries [] ;;
          Ok (dict, {| graph_data := graph_data b;
                       R_graph_nx := R_graph_nx b;
                       L_dict := Some dict |})
      end
  end.

(** A builder holding an extraction output and nothing built yet. *)
Definition fresh_builder (rs : option (list r_entry))
    (ls : option (list l_entry)) : builder :=
  {| graph_data := Some {| data_R := rs; data_L := ls |};
     R_graph_nx := None; L_dict := None |}.

Definition r_entry_ok (entry : r_entry) : bool :=
  match E1 entry, E2 entry with Some _, Some _ => true | _, _ => false end.

Definition l_entry_ok (entry : l_entry) : bool :=
  match Label entry, Entity entry, entry_time entry with
  | Some _, Some _, Some _ => true
  | _, _, _ => false
  end.

(** The edges the facts of one entry stand for, keys aside. *)
Definition entry_facts (entry : r_entry)
  : list (string * string * PyDict.t string) :=
  map (fun r => (get_default (E1 entry) ""%string,
                 get_default (E2 entry) ""%string, fact_attr r))
      (get_default (R_facts entry) []).

Definition edge_payload (e : nx.edge) : string * string * PyDict.t string :=
  (nx.source e, nx.target e, nx.data e).

Definition entity_of (entry : l_entry) : string :=
  get_default (Entity entry) ""%string.

Definition observation (entry : l_entry) : label_entry :=
  {| label := get_default (Label entry) ""%string;
     time := get_default (entry_time entry) ""%string |}.

(** The observations of one entity, in input order. *)
Definition observations_of (entity : string) (entries : list l_entry)
  : list label_entry :=
  map observation (filter (fun e => String.eqb entity (entity_of e)) entries).

(** The node is in the graph and its ["type"] attribute is ["entity"]. *)
Definition is_entity (n : string) (G : nx.MultiDiGraph) : bool :=
  match PyDict.get n (nx.node G) with
  | Some attrs =>
      match PyDict.get "type" attrs with
      | Some t => String.eqb t "entity"
      | None => false
      end
  | None => false
  end.

(** Both endpoints of every edge are entity nodes of the graph. *)
Definition endpoints_tagged (G : nx.MultiDiGraph) : Prop :=
  forall e, In e (nx.edges G) ->
    is_entity (nx.source e) G = true /\ is_entity (nx.target e) G = true.

(** The keys of the parallel edges between two nodes are [0 .. n-1]
    at most. *)
Definition keys_dense (G : nx.MultiDiGraph) : Prop :=
  forall e, In e (nx.edges G) ->
    (nx.key e < List.length (nx.keydict (nx.source e) (nx.target e) G))%nat.

(** What the loops of [build_r_graph] maintain. *)
Definition assembled (G : nx.MultiDiGraph) : Prop :=
  keys_dense G /\ endpoints_tagged G.

(** The facts of one entry, and the three attributes an edge carries. *)
Definition facts_of (entry : r_entry) : list r_fact :=
  get_default (R_facts entry) [].

Definition edge_attributes (e : nx.edge)
  : option string * option string * option string :=
  (PyDict.get "time" (nx.data e), PyDict.get "relationship" (nx.data e),
   PyDict.get "event" (nx.data e)).

Definition fact_attributes (r : r_fact)
  : option string * option string * option string :=
  (Some (get_default (fact_time r) ""),
   Some (get_default (fact_relationship r) ""),
   Some (get_default (fact_event r) "")).

(** One observation appended to the list of its entity, the list being
    created when the entity is new. *)
Definition observe (entity : string) (x : label_entry)
    (d : PyDict.t (list label_entry)) : PyDict.t (list label_entry) :=
  PyDict.set entity (get_default (PyDict.get entity d) [] ++ [x]) d.

Definition observe_all (entries : list l_entry)
    (d : PyDict.t (list label_entry)) : PyDict.t (list label_entry) :=
  fold_left (fun acc e => observe (entity_of e) (observation e) acc) entries d.

(** The keys whose absence makes [build_l_dict] fail. *)
Definition l_entry_keys : list string := ["Label"; "Entity"; "time"].

(* ------------------------------------------------------------------ *)
(** ** Entity resolution ([neo4j_gpt_qa.py])

    An embedding is a one-dimensional [numpy] array of binary64 numbers,
    here a list of primitive floats.  The arithmetic and the comparisons
    of [cosine_similarity] and [find_best_matching_node] are those of
    IEEE 754: rounding to nearest, infinities, signed zeros and NaN. *)

Definition vector : Type := list float.

(** The loop of [np.dot] on one-dimensional arrays: the products are
    added to the accumulator from the left.  (A BLAS kernel may add them
    in another order, which changes the rounding of the sum; no property
    below rests on the order.) *)
Fixpoint dot_from (acc : float) (a b : vector) : result float :=
  match a, b with
  | [], [] => Ok acc
  | x :: a', y :: b' => dot_from (acc + x * y)%float a' b'
  | _, _ => Raise (ValueError "shapes not aligned")
  end.

(** [np.dot(a, b)]; arrays of different lengths raise [ValueError]. *)
Definition dot (a b : vector) : result float := dot_from 0%float a b.

(** [a.dot(a)] *)
Definition sum_squares (a : vector) : float :=
  fold_left (fun acc x => (acc + x * x)%float) a 0%float.

(** [numpy.linalg.norm(a)], the square root of [a.dot(a)] *)
Definition norm (a : vector) : float := PrimFloat.sqrt (sum_squares a).

(** [1e-8] *)
Definition epsilon : float := 1e-8%float.

Definition cosine_similarity (a b : vector) : result float :=
  d <- dot a b ;; Ok (d / (norm a * norm b + epsilon))%float.

Record index_item : Type := {
  item_name : string;                             (* "name" *)
  item_embedding : vector                         (* "embedding" *)
}.

(** The scan of [find_best_matching_node], threading [best_name] and
    [best_score]; [sim > best_score] is [best_score < sim]. *)
Fixpoint scan_index (query_emb : vector) (index : list index_item)
    (best_name : option string) (best_score : float)
  : result (option string * float) :=
  match index with
  | [] => Ok (best_name, best_score)
  | item :: rest =>
      sim <- cosine_similarity query_emb (item_embedding item) ;;
      if (best_score <? sim)%float
      then scan_index query_emb rest (Some (item_name item)) sim
      else scan_index query_emb rest best_name best_score
  end.

(** [-1.0], the initial [best_score] *)
Definition initial_score : float := (-1)%float.

Section Resolver.
(** The embedding service. *)
Variable embed_text : text -> vector.

Definition find_best_matching_node (question_text : text)
    (index : list index_item) (threshold : float) : result (option string) :=
  let query_emb := embed_text question_text in
  st <- scan_index query_emb index None initial_score ;;
  if (threshold <=? snd st)%float then Ok (fst st) else Ok None.
End Resolver.

(** Every entry of the index has the dimension of the query embedding. *)
Definition same_dimension (query_emb : vector) (index : list index_item)
  : Prop :=
  Forall (fun item => List.length (item_embedding item) = List.length query_emb)
         index.

(** The similarity of the query to the entry at position [k]. *)
Definition score_at (query_emb : vector) (index : list index_item) (k : nat)
    (s : float) : Prop :=
  exists item,
    nth_error index k = Some item /\
    cosine_similarity query_emb (item_embedding item) = Ok s.

(** Position [k] holds the maximum similarity [s]: no entry scores above
    [s], and no earlier entry reaches it. *)
Definition earliest_maximum (query_emb : vector) (index : list index_item)
    (k : nat) (s : float) : Prop :=
  score_at query_emb index k s /\
  (forall j s', score_at query_emb index j s' -> (s <? s')%float = false) /\
  (forall j s', (j < k)%nat -> score_at query_emb index j s' ->
                (s <=? s')%float = false).


(** Case analysis on the comparison of the exponents and mantissas of
    two binary64 numbers. *)
Ltac compare_cases :=
  repeat match goal with
  | H : context [Pos.compare_cont Eq ?x ?y] |- _ =>
      change (Pos.compare_cont Eq x y) with (Pos.compare x y) in H
  | |- context [Pos.compare_cont Eq ?x ?y] =>
      change (Pos.compare_cont Eq x y) with (Pos.compare x y)
  end;
  repeat match goal with
  | H : context [Z.compare ?x ?y] |- _ =>
      destruct (Z.compare_spec x y); try subst
  | |- context [Z.compare ?x ?y] =>
      destruct (Z.compare_spec x y); try subst
  | H : context [Pos.compare ?x ?y] |- _ =>
      destruct (Pos.compare_spec x y); try subst
  | |- context [Pos.compare ?x ?y] =>
      destruct (Pos.compare_spec x y); try subst
  end;
  simpl in *; try discriminate; try reflexivity; try lia.

(** The kinds of binary64 numbers: zeros, infinities, NaN and the finite
    non-zero numbers, each with its sign. *)
Ltac float_cases a := destruct a as [[|]|[|]| |[|] ? ?].

(* ------------------------------------------------------------------ *)
(** ** Sample inputs *)

Module Samples.
Definition txt (s : string) : text := list_ascii_of_string s.

(** Two passes naming ["alice"], the second with other labels. *)
Definition alice_v1 : node :=
  {| node_id := Some "alice"; node_labels := ["Person"];
     node_properties := [("name", "Alice")] |}.
Definition bob : node :=
  {| node_id := Some "bob"; node_labels := ["Person"];
     node_properties := [("name", "Bob")] |}.
Definition alice_v2 : node :=
  {| node_id := Some "alice"; node_labels := ["Instructor"];
     node_properties := [("time", "2024-01")] |}.
Definition met : relationship :=
  {| start_node_id := "alice"; end_node_id := "bob"; rel_type := "MET";
     rel_properties := [("time", "2024-01")] |}.

Definition pass1 : graph :=
  {| nodes := Some [alice_v1; bob]; relationships := Some [met] |}.
Definition pass2 : graph :=
  {| nodes := Some [alice_v2]; relationships := Some [met; met] |}.
Definition passes : list graph := [pass1; pass2].

(** A node without ["id"]. *)
Definition anonymous : node :=
  {| node_id := None; node_labels := []; node_properties := [] |}.

(** The scenario of the module's own test data. *)
Definition met_fact : r_fact :=
  {| fact_time := Some "2024-01"; fact_relationship := Some "met";
     fact_event := Some "Alice met Bob at a conference." |}.
Definition undated_fact : r_fact :=
  {| fact_time := None; fact_relationship := Some "met";
     fact_event := None |}.
Definition alice_bob : r_entry :=
  {| E1 := Some "Alice"; E2 := Some "Bob";
     R_facts := Some [met_fact; undated_fact] |}.
Definition alice_bob_no_facts : r_entry :=
  {| E1 := Some "Alice"; E2 := Some "Bob"; R_facts := Some [] |}.

Definition alice_person : l_entry :=
  {| Label := Some "Person"; Entity := Some "Alice";
     entry_time := Some "2024-01" |}.
Definition alice_instructor : l_entry :=
  {| Label := Some "Instructor"; Entity := Some "Alice";
     entry_time := Some "2024-02" |}.
Definition bob_person : l_entry :=
  {| Label := Some "Person"; Entity := Some "Bob";
     entry_time := Some "2024-01" |}.
Definition alice_untimed : l_entry :=
  {| Label := Some "Person"; Entity := Some "Alice"; entry_time := None |}.

Definition labels : list l_entry :=
  [alice_person; alice_instructor; bob_person; alice_person].

Definition extraction_output : extraction :=
  {| data_R := Some [alice_bob]; data_L := Some labels |}.

Definition a_builder : builder :=
  {| graph_data := Some extraction_output;
     R_graph_nx := None; L_dict := None |}.

(** A completion service whose answers never parse. *)
Definition garbage (chunk_text : text) (i : nat) : text := txt "not json".
Definition no_parse (s : text) : option graph := None.

(** A two-entry index and a query embedded on the first entry. *)
Definition paris : index_item :=
  {| item_name := "Paris"; item_embedding := [1%float; 0%float] |}.
Definition london : index_item :=
  {| item_name := "London"; item_embedding := [0%float; 1%float] |}.
Definition cities : list index_item := [paris; london].
Definition embed_as_paris (question : text) : vector := [1%float; 0%float].

Definition embed_far (question : text) : vector := [100000%float; 0%float].
End Samples.

(* ------------------------------------------------------------------ *)
(** ** Further functions of the same files *)

(** A non-empty text with no whitespace at either end. *)
Definition trimmed (s : text) : bool :=
  match s with [] => false | c :: _ => negb (is_space c) end &&
  match rev s with [] => false | c :: _ => negb (is_space c) end.

(** The text holds the paragraph separator somewhere. *)
Fixpoint contains_sep (s : text) : bool :=
  match s with
  | [] => false
  | c :: s' =>
      match s' with
      | [] => false
      | c' :: _ =>
          (Ascii.eqb c newline && Ascii.eqb c' newline) || contains_sep s'
      end
  end.


(** The [__main__] block of [neo4j_book2graph.py]: every chunk is
    extracted with the default five passes; a chunk whose extraction raises
    is reported and skipped; the chunk graphs are merged. *)
Section Pipeline.
(** The completion service at work on the chunk of a given index. *)
Variable completion_at : nat -> text -> nat -> text.
Variable json_loads : text -> option graph.
(** Whether the work on the chunk of a given index is cut short by an
    exception from outside the model. *)
Variable interrupted : nat -> bool.




End Pipeline.


(** The endpoints named by the facts of the entries, fact by fact. *)
Definition fact_endpoints (rs : list r_entry) : list string :=
  flat_map
    (fun entry =>
       flat_map (fun _ : r_fact => [get_default (E1 entry) "";
                                    get_default (E2 entry) ""])
                (facts_of entry))
    rs.

(** The node dictionary of a graph whose nodes are all tagged entities. *)
Definition entity_nodes (ks : list string) : PyDict.t (PyDict.t string) :=
  map (fun n => (n, entity_tag)) ks.

(** How many of the edges join [u] to [v]. *)
Definition parallel_edges (u v : string) (es : list nx.edge) : nat :=
  List.length (filter (nx.joins u v) es).

(** [sum(len(labels) for labels in L_dict.values())] *)
Definition total_labels (d : PyDict.t (list label_entry)) : nat :=
  list_sum (map (fun l => List.length l) (PyDict.values d)).

(** The vector of [n] zeros. *)
Definition zeros (n : nat) : vector := repeat 0%float n.

(* ------------------------------------------------------------------ *)
(** ** Cleaning a generated query ([clean_cypher_query]) *)

Definition backtick : ascii := ascii_of_nat 96.

Fixpoint lstrip_by (p : ascii -> bool) (s : text) : text :=
  match s with
  | [] => []
  | c :: s' => if p c then lstrip_by p s' else s
  end.

(** [s.strip(chars)], the characters given by a predicate. *)
Definition strip_by (p : ascii -> bool) (s : text) : text :=
  rev (lstrip_by p (rev (lstrip_by p s))).

Definition is_backtick (c : ascii) : bool := Ascii.eqb c backtick.

(** The line boundaries of [str.splitlines] below 256. *)
Definition is_linebreak (c : ascii) : bool :=
  let n := nat_of_ascii c in
  (((10 <=? n) && (n <=? 13)) || ((28 <=? n) && (n <=? 30))
   || (n =? 133))%nat.

(** [s.splitlines()], the current line being accumulated in reverse: a
    carriage return followed by a line feed is one boundary, and no empty
    line is reported after a final boundary. *)
Fixpoint splitlines_from (cur : text) (s : text) : list text :=
  match s with
  | [] => match cur with [] => [] | _ :: _ => [rev cur] end
  | c :: s' =>
      if is_linebreak c
      then rev cur ::
           match s' with
           | [] => splitlines_from [] s'
           | c' :: s'' =>
               if Ascii.eqb c (ascii_of_nat 13) && Ascii.eqb c' newline
               then splitlines_from [] s''
               else splitlines_from [] s'
           end
      else splitlines_from (c :: cur) s'
  end.

Definition splitlines (s : text) : list text := splitlines_from [] s.

(** [c.lower()] below 256. *)
Definition lower_char (c : ascii) : ascii :=
  let n := nat_of_ascii c in
  if (((65 <=? n) && (n <=? 90)) || ((192 <=? n) && (n <=? 214))
      || ((216 <=? n) && (n <=? 222)))%nat
  then ascii_of_nat (n + 32) else c.

Definition lower (s : text) : text := map lower_char s.

Definition text_eqb (a b : text) : bool :=
  if list_eq_dec Ascii.ascii_dec a b then true else false.

(** The language tags dropped after an opening fence. *)
Definition language_tags : list text :=
  map list_ascii_of_string ["cypher"; "python"; "sql"].

Definition is_language_tag (line : text) : bool :=
  existsb (text_eqb (lower line)) language_tags.

Definition clean_cypher_query (cypher_query : text) : text :=
  let cypher_query :=
    if starts_with fence cypher_query
    then
      let cypher_query := strip_by is_backtick cypher_query in
      let lines := splitlines cypher_query in
      let lines :=
        match lines with
        | first :: rest => if is_language_tag first then rest else lines
        | [] => lines
        end in
      let lines :=
        match rev lines with
        | final :: _ =>
            if truthy (strip final) then lines else removelast lines
        | [] => lines
        end in
      join [newline] lines
    else cypher_query in
  strip cypher_query.

(** No line boundary inside. *)
Definition one_line (s : text) : bool :=
  forallb (fun c => negb (is_linebreak c)) s.

(* ------------------------------------------------------------------ *)
(** ** The provenance file ([save_to_json]) *)

Section Provenance.
Variable trace : Type.
(** [json.dump] and [json.load] on the list of records. *)
Variable json_dump : list trace -> text.
Variable json_load : text -> result (list trace).

(** The file at [path] is absent ([None]) or has a content; the result is
    the file afterwards, and a raised exception leaves it as it was. *)
Definition save_to_json (data : trace) (file : option text)
  : result (option text) :=
  all_data <-
    match file with
    | Some content =>
        match content with
        | [] => Ok []
        | _ :: _ => json_load content
        end
    | None => Ok []
    end ;;
  Ok (Some (json_dump (all_data ++ [data]))).

(** One call per record, in order. *)
Fixpoint save_all (records : list trace) (file : option text)
  : result (option text) :=
  match records with
  | [] => Ok file
  | data :: rest => file' <- save_to_json data file ;; save_all rest file'
  end.
End Provenance.

(** The running buffer is empty, or one paragraph and the separator, or
    stays below the budget. *)
Definition buffer_within (max_tokens : Z) (paragraphs : list text)
    (cur : text) : Prop :=
  cur = [] \/
  (exists p, In p paragraphs /\ cur = p ++ paragraph_sep) \/
  (exists body,
      cur = body ++ paragraph_sep /\
      (Z.of_nat (List.length body) < max_tokens)%Z).

(** A chunk is shorter than the budget or is one stripped paragraph. *)
Definition chunk_within (max_tokens : Z) (paragraphs : list text)
    (c : text) : Prop :=
  (Z.of_nat (List.length c) < max_tokens)%Z \/
  (exists p, In p paragraphs /\ c = strip p).

(** What tells an edge apart in the multigraph. *)
Definition edge_id (e : nx.edge) : string * string * nat :=
  (nx.source e, nx.target e, nx.key e).

(** Each edge has for key the number of edges added before it between the
    same two nodes. *)
Definition keys_sequential (es : list nx.edge) : Prop :=
  forall i e, nth_error es i = Some e ->
    nx.key e = parallel_edges (nx.source e) (nx.target e) (firstn i es).

(** The text does not begin with a backtick. *)
Definition head_plain (s : text) : bool :=
  match s with [] => true | c :: _ => negb (is_backtick c) end.

(** A fenced answer: the opening fence, what follows it on its line, the
    lines of the body and the closing fence on a line of its own. *)
Definition fenced (tag : text) (lines : list text) : text :=
  fence ++ tag ++ newline :: join [newline] lines ++ newline :: fence.

(* ------------------------------------------------------------------ *)
(** ** More sample inputs *)

Module MoreSamples.
Import Samples.

Definition greeting : text := txt "  hello world ".
Definition long_paragraph : text := txt "abcdefghijkl".

(** [{}] in a fence, on a single space of indentation. *)
Definition json_body : text := txt "{}".

Definition merged_passes : graph :=
  {| nodes := Some [alice_v2; bob];
     relationships := Some [met; met; met] |}.



Definition query_lines : list text := [txt "MATCH (n)"; txt "RETURN n"].

(** A stand-in for JSON on lists of characters: an opening bracket, then
    the characters. *)
Definition dump_chars (l : list ascii) : text := "["%char :: l.
Definition load_chars (s : text) : result (list ascii) := Ok (tl s).

(** A parser that reads every response as the first sample pass. *)
Definition reads_pass1 (s : text) : option graph := Some pass1.
Definition pass1_twice : graph :=
  {| nodes := Some [alice_v1; bob]; relationships := Some [met; met] |}.

(** A vector of norm 5. *)
Definition three_four : vector := [3%float; 4%float].
End MoreSamples.

(* ================================================================== *)
(** * Properties *)

Unset Implicit Arguments.

(** ** Dictionaries *)

Module PyDictFacts.
Section Facts.
Variable V : Type.
Implicit Types (d : PyDict.t V) (k : string) (v : V).

Lemma get_set_same k v d : PyDict.get k (PyDict.set k v d) = Some v.
Proof.
  induction d as [|[k' v'] d IH]; simpl.
  - now rewrite String.eqb_refl.
  - destruct (String.eqb k k') eqn:E; simpl; rewrite E; auto.
Qed.

Lemma get_set_other k k' v d :
  k <> k' -> PyDict.get k (PyDict.set k' v d) = PyDict.get k d.
Proof.
  intros Hne. induction d as [|[k0 v0] d IH]; simpl.
  - apply String.eqb_neq in Hne. now rewrite Hne.
  - destruct (String.eqb k' k0) eqn:E; simpl.
    + apply String.eqb_eq in E. subst k0.
      apply String.eqb_neq in Hne. now rewrite Hne.
    + now rewrite IH.
Qed.

Lemma mem_keys k d :
  PyDict.mem k d = existsb (String.eqb k) (PyDict.keys d).
Proof.
  unfold PyDict.mem.
  induction d as [|[k' v'] d IH]; simpl; auto.
  destruct (String.eqb k k'); simpl; auto.
Qed.

Lemma mem_true_iff k d : PyDict.mem k d = true <-> In k (PyDict.keys d).
Proof.
  rewrite mem_keys, existsb_exists. split.
  - intros [x [Hin Heq]]. apply String.eqb_eq in Heq. now subst.
  - intros Hin. exists k. split; auto. apply String.eqb_refl.
Qed.

Lemma mem_false_iff k d : PyDict.mem k d = false <-> ~ In k (PyDict.keys d).
Proof.
  rewrite <- mem_true_iff. destruct (PyDict.mem k d); split; congruence.
Qed.

Lemma set_fresh k v d :
  ~ In k (PyDict.keys d) -> PyDict.set k v d = d ++ [(k, v)].
Proof.
  induction d as [|[k' v'] d IH]; simpl; intros Hnin; auto.
  destruct (String.eqb k k') eqn:E.
  - apply String.eqb_eq in E. subst. tauto.
  - f_equal. apply IH. tauto.
Qed.

Lemma keys_set_known k v d :
  In k (PyDict.keys d) -> PyDict.keys (PyDict.set k v d) = PyDict.keys d.
Proof.
  induction d as [|[k' v'] d IH]; simpl; intros Hin; [tauto|].
  destruct (String.eqb k k') eqn:E; simpl; auto.
  f_equal. apply IH. destruct Hin as [->|]; auto.
  now rewrite String.eqb_refl in E.
Qed.

Lemma keys_set k v d :
  PyDict.keys (PyDict.set k v d) =
  if PyDict.mem k d then PyDict.keys d else PyDict.keys d ++ [k].
Proof.
  destruct (PyDict.mem k d) eqn:E.
  - apply keys_set_known. now apply mem_true_iff.
  - apply mem_false_iff in E. rewrite (set_fresh _ v _ E).
    unfold PyDict.keys. now rewrite map_app.
Qed.

Lemma NoDup_keys_set k v d :
  NoDup (PyDict.keys d) -> NoDup (PyDict.keys (PyDict.set k v d)).
Proof.
  intros Hnd. rewrite keys_set. destruct (PyDict.mem k d) eqn:E; auto.
  apply mem_false_iff in E.
  apply NoDup_rev in Hnd. rewrite <- (rev_involutive (_ ++ _)).
  apply NoDup_rev. rewrite rev_app_distr. simpl.
  constructor; auto. now rewrite <- in_rev.
Qed.

Lemma in_set_inv k v d k0 v0 :
  In (k0, v0) (PyDict.set k v d) -> (k0 = k /\ v0 = v) \/ In (k0, v0) d.
Proof.
  induction d as [|[k' v'] d IH]; simpl.
  - intros [H|[]]. inversion H. auto.
  - destruct (String.eqb k k') eqn:E; simpl.
    + apply String.eqb_eq in E. subst k'.
      intros [H|H]; [inversion H; auto | auto].
    + intros [H|H]; auto. destruct (IH H); auto.
Qed.

Lemma get_update_all kvs : forall d k,
  PyDict.get k (PyDict.update_all kvs d) =
  match last_binding k kvs with
  | Some v => Some v
  | None => PyDict.get k d
  end.
Proof.
  unfold PyDict.update_all.
  induction kvs as [|[k' v'] kvs IH]; intros d k; simpl; auto.
  rewrite IH. destruct (last_binding k kvs); auto.
  destruct (String.eqb k k') eqn:E.
  - apply String.eqb_eq in E. subst. apply get_set_same.
  - apply get_set_other. now apply String.eqb_neq.
Qed.

Lemma NoDup_keys_update_all kvs : forall d,
  NoDup (PyDict.keys d) -> NoDup (PyDict.keys (PyDict.update_all kvs d)).
Proof.
  unfold PyDict.update_all.
  induction kvs as [|[k v] kvs IH]; intros d Hnd; simpl; auto.
  apply IH. now apply NoDup_keys_set.
Qed.

Lemma update_all_app kvs1 kvs2 d :
  PyDict.update_all (kvs1 ++ kvs2) d =
  PyDict.update_all kvs2 (PyDict.update_all kvs1 d).
Proof. unfold PyDict.update_all. apply fold_left_app. Qed.

(** Inserting the pairs of a duplicate-free dictionary, in order, after
    a dictionary that shares no key with it appends them. *)
Lemma update_all_fresh d2 : forall d1,
  NoDup (PyDict.keys (d1 ++ d2)) -> PyDict.update_all d2 d1 = d1 ++ d2.
Proof.
  unfold PyDict.update_all.
  induction d2 as [|[k v] d2 IH]; intros d1 Hnd; simpl.
  - now rewrite app_nil_r.
  - assert (Hk : ~ In k (PyDict.keys d1)).
    { unfold PyDict.keys in *. rewrite map_app in Hnd. simpl in Hnd.
      apply NoDup_remove_2 in Hnd. rewrite in_app_iff in Hnd. tauto. }
    rewrite (set_fresh _ v _ Hk).
    rewrite IH; rewrite <- app_assoc; simpl; auto.
Qed.

Lemma in_get k v d :
  NoDup (PyDict.keys d) -> In (k, v) d -> PyDict.get k d = Some v.
Proof.
  induction d as [|[k' v'] d IH]; simpl; intros Hnd Hin; [tauto|].
  inversion Hnd as [|? ? Hnin Hnd']; subst.
  destruct Hin as [H|H].
  - inversion H; subst. now rewrite String.eqb_refl.
  - destruct (String.eqb k k') eqn:E.
    + apply String.eqb_eq in E. subst. exfalso. apply Hnin.
      unfold PyDict.keys. apply in_map_iff. now exists (k', v).
    + auto.
Qed.

Lemma get_in k v d : PyDict.get k d = Some v -> In (k, v) d.
Proof.
  induction d as [|[k' v'] d IH]; simpl; [discriminate|].
  destruct (String.eqb k k') eqn:E; auto.
  apply String.eqb_eq in E. subst. intros H. inversion H. auto.
Qed.
End Facts.
End PyDictFacts.

Lemma first_occurrences_ext l : forall seen1 seen2,
  (forall x, In x seen1 <-> In x seen2) ->
  first_occurrences seen1 l = first_occurrences seen2 l.
Proof.
  induction l as [|x l IH]; intros s1 s2 H; simpl; auto.
  assert (E : existsb (String.eqb x) s1 = existsb (String.eqb x) s2).
  { apply eq_true_iff_eq. rewrite !existsb_exists.
    split; intros [y [Hin Hy]]; exists y; split; auto; now apply H. }
  rewrite E. destruct (existsb (String.eqb x) s2).
  - now apply IH.
  - f_equal. apply IH. intros y. simpl. now rewrite H.
Qed.

(** The keys after a series of assignments: the old keys, then the new
    ones in the order they first appear. *)
Lemma keys_update_all {V : Type} (kvs : list (string * V)) : forall d,
  PyDict.keys (PyDict.update_all kvs d) =
  PyDict.keys d ++ first_occurrences (PyDict.keys d) (map fst kvs).
Proof.
  unfold PyDict.update_all.
  induction kvs as [|[k v] kvs IH]; intros d; simpl.
  - now rewrite app_nil_r.
  - rewrite IH, PyDictFacts.keys_set, <- PyDictFacts.mem_keys.
    destruct (PyDict.mem k d) eqn:E; auto.
    rewrite <- app_assoc. simpl. do 2 f_equal.
    apply first_occurrences_ext. intros x.
    rewrite in_app_iff. simpl. tauto.
Qed.

(* ------------------------------------------------------------------ *)
(** ** Merge of candidate graphs *)

Lemma merge_nodes_ok ns : forall d,
  forallb has_id ns = true ->
  merge_nodes ns d = Ok (PyDict.update_all (keyed ns) d).
Proof.
  induction ns as [|n ns IH]; intros d H; simpl in *; auto.
  apply andb_prop in H as [Hn Hns].
  unfold has_id in Hn. unfold id_of.
  destruct (node_id n) as [i|]; [|discriminate]. simpl.
  now rewrite (IH _ Hns).
Qed.

Lemma merge_loop_ok graph_list : forall d rels,
  well_formed graph_list ->
  merge_loop graph_list d rels =
  Ok (PyDict.update_all (keyed (all_nodes graph_list)) d,
      rels ++ all_relationships graph_list).
Proof.
  unfold well_formed.
  induction graph_list as [|g rest IH]; intros d rels H; simpl in *.
  - now rewrite app_nil_r.
  - rewrite forallb_app in H. apply andb_prop in H as [Hg Hrest].
    rewrite (merge_nodes_ok _ _ Hg). simpl.
    rewrite (IH _ _ Hrest). unfold keyed.
    now rewrite map_app, PyDictFacts.update_all_app, app_assoc.
Qed.

(** What the merge returns on inputs whose nodes all carry an id. *)
Lemma merge_graph_data_ok graph_list :
  well_formed graph_list ->
  merge_graph_data graph_list =
  Ok {| nodes := Some (PyDict.values
                         (PyDict.update_all (keyed (all_nodes graph_list))
                                            PyDict.empty));
        relationships := Some (all_relationships graph_list) |}.
Proof.
  intros H. unfold merge_graph_data. now rewrite (merge_loop_ok _ _ _ H).
Qed.

Lemma self_keyed_update_all ns : forall d,
  self_keyed d -> self_keyed (PyDict.update_all (keyed ns) d).
Proof.
  unfold self_keyed, PyDict.update_all.
  induction ns as [|n ns IH]; intros d H; simpl; auto.
  apply IH. apply Forall_forall. intros [k v] Hin.
  apply PyDictFacts.in_set_inv in Hin as [[-> ->]|Hin]; auto.
  rewrite Forall_forall in H. now apply (H (k, v)).
Qed.

Lemma self_keyed_values d : self_keyed d -> keyed (PyDict.values d) = d.
Proof.
  unfold self_keyed, keyed, PyDict.values.
  induction 1 as [|[k v] d Hkv _ IH]; simpl in *; auto.
  now rewrite Hkv, IH.
Qed.

Lemma self_keyed_ids d :
  self_keyed d -> map id_of (PyDict.values d) = PyDict.keys d.
Proof.
  unfold self_keyed, PyDict.values, PyDict.keys.
  induction 1 as [|[k v] d Hkv _ IH]; simpl in *; auto.
  now rewrite Hkv, IH.
Qed.

Lemma self_keyed_lookup d i :
  self_keyed d -> lookup_node i (PyDict.values d) = PyDict.get i d.
Proof.
  unfold self_keyed, lookup_node, PyDict.values.
  induction 1 as [|[k v] d Hkv _ IH]; simpl in *; auto.
  rewrite Hkv. destruct (String.eqb i k); auto.
Qed.

Lemma merged_self_keyed ns :
  self_keyed (PyDict.update_all (keyed ns) PyDict.empty).
Proof. apply self_keyed_update_all. constructor. Qed.

Lemma merged_NoDup ns :
  NoDup (PyDict.keys (PyDict.update_all (keyed ns) PyDict.empty)).
Proof. apply PyDictFacts.NoDup_keys_update_all. constructor. Qed.

Lemma in_update_all {V : Type} (kvs : list (string * V)) : forall d k v,
  In (k, v) (PyDict.update_all kvs d) -> In (k, v) kvs \/ In (k, v) d.
Proof.
  unfold PyDict.update_all.
  induction kvs as [|[k' v'] kvs IH]; intros d k v Hin; simpl in *; auto.
  apply IH in Hin as [Hin|Hin]; auto.
  apply PyDictFacts.in_set_inv in Hin as [[-> ->]|Hin]; auto.
Qed.

Lemma merged_values_have_id ns :
  forallb has_id ns = true ->
  forallb has_id
    (PyDict.values (PyDict.update_all (keyed ns) PyDict.empty)) = true.
Proof.
  intros H. apply forallb_forall. intros n Hin.
  unfold PyDict.values in Hin. apply in_map_iff in Hin as [[k v] [Heq Hin]].
  simpl in Heq. subst v.
  apply in_update_all in Hin as [Hin|[]].
  unfold keyed in Hin. apply in_map_iff in Hin as [n' [Heq Hin]].
  inversion Heq; subst. rewrite forallb_forall in H. now apply H.
Qed.

(** C1. On a fixed sequence of candidate graphs whose nodes all carry an
    id, the merge returns a node list that is a mapping keyed by id (no id
    occurs twice), in which the record found under each id is, in full, the
    last record with that id in the inputs; running the merge again on the
    same sequence gives the same graph. *)
Theorem merge_last_seen_wins (graph_list : list graph) :
  well_formed graph_list ->
  exists g ns,
    merge_graph_data graph_list = Ok g /\
    nodes g = Some ns /\
    NoDup (map id_of ns) /\
    (forall i, lookup_node i ns = last_seen i (all_nodes graph_list)) /\
    (forall g', merge_graph_data graph_list = Ok g' -> g' = g).
Proof.
  intros Hwf. rewrite (merge_graph_data_ok _ Hwf).
  eexists. eexists. split; [reflexivity|]. split; [reflexivity|].
  pose proof (merged_self_keyed (all_nodes graph_list)) as Hsk.
  split; [|split].
  - rewrite (self_keyed_ids _ Hsk). apply merged_NoDup.
  - intros i. rewrite (self_keyed_lookup _ i Hsk).
    rewrite PyDictFacts.get_update_all. unfold last_seen.
    now destruct (last_binding i (keyed (all_nodes graph_list))).
  - intros g' Hg'. now inversion Hg'.
Qed.

(** C2. The merged relationship list is the in-order concatenation of the
    relationship lists of the inputs; its length is the sum of theirs. *)
Theorem merge_relationships_concatenated (graph_list : list graph) :
  well_formed graph_list ->
  exists g,
    merge_graph_data graph_list = Ok g /\
    relationships g = Some (all_relationships graph_list) /\
    List.length (all_relationships graph_list) =
    list_sum (map (fun g0 => List.length (get_default (relationships g0) []))
                  graph_list).
Proof.
  intros Hwf. rewrite (merge_graph_data_ok _ Hwf).
  eexists. split; [reflexivity|]. split; [reflexivity|].
  clear Hwf. unfold all_relationships.
  induction graph_list as [|g rest IH]; simpl; auto.
  now rewrite length_app, IH.
Qed.

(** C3. Merging the merged graph alone gives the merged graph back. *)
Theorem merge_idempotent (graph_list : list graph) :
  well_formed graph_list ->
  exists g,
    merge_graph_data graph_list = Ok g /\
    merge_graph_data [g] = Ok g.
Proof.
  intros Hwf. rewrite (merge_graph_data_ok _ Hwf).
  eexists. split; [reflexivity|].
  set (d := PyDict.update_all (keyed (all_nodes graph_list)) PyDict.empty).
  assert (Hwf' : well_formed
            [{| nodes := Some (PyDict.values d);
                relationships := Some (all_relationships graph_list) |}]).
  { unfold well_formed, all_nodes. simpl. rewrite app_nil_r.
    now apply merged_values_have_id. }
  rewrite (merge_graph_data_ok _ Hwf').
  unfold all_nodes, all_relationships. simpl. rewrite !app_nil_r.
  rewrite (self_keyed_values d (merged_self_keyed _)).
  rewrite (PyDictFacts.update_all_fresh _ d PyDict.empty); auto.
  apply merged_NoDup.
Qed.

(** C10. The merged node list is ordered by the first occurrence of each
    id in the inputs, while the record at each position is the last one the
    inputs hold for that id. *)
Theorem merge_first_occurrence_order (graph_list : list graph) :
  well_formed graph_list ->
  exists g ns,
    merge_graph_data graph_list = Ok g /\
    nodes g = Some ns /\
    map id_of ns = first_occurrences [] (map id_of (all_nodes graph_list)) /\
    (forall k n, nth_error ns k = Some n ->
                 last_seen (id_of n) (all_nodes graph_list) = Some n).
Proof.
  intros Hwf. rewrite (merge_graph_data_ok _ Hwf).
  eexists. eexists. split; [reflexivity|]. split; [reflexivity|].
  pose proof (merged_self_keyed (all_nodes graph_list)) as Hsk.
  split.
  - rewrite (self_keyed_ids _ Hsk), keys_update_all. simpl.
    unfold keyed. rewrite map_map. simpl. reflexivity.
  - intros k n Hn. apply nth_error_In in Hn.
    unfold PyDict.values in Hn. apply in_map_iff in Hn as [[i v] [Heq Hin]].
    simpl in Heq. subst v.
    assert (Hi : id_of n = i).
    { unfold self_keyed in Hsk. rewrite Forall_forall in Hsk.
      apply (Hsk (i, n) Hin). }
    rewrite Hi.
    apply PyDictFacts.in_get in Hin; [|apply merged_NoDup].
    rewrite PyDictFacts.get_update_all in Hin. unfold last_seen.
    destruct (last_binding i (keyed (all_nodes graph_list))); auto.
Qed.

(* ------------------------------------------------------------------ *)
(** ** Chunking *)

Lemma blank_app (s1 s2 : text) : blank (s1 ++ s2) = blank s1 && blank s2.
Proof. apply forallb_app. Qed.

Lemma blank_rev (s : text) : blank (rev s) = blank s.
Proof.
  apply eq_true_iff_eq. unfold blank. rewrite !forallb_forall.
  split; intros H c Hin; apply H; [now apply in_rev in Hin|].
  now apply in_rev.
Qed.

Lemma lstrip_decomp (s : text) :
  exists lead, blank lead = true /\ s = lead ++ lstrip s.
Proof.
  induction s as [|c s [lead [Hb Hs]]]; simpl.
  - now exists [].
  - destruct (is_space c) eqn:E.
    + exists (c :: lead). simpl. rewrite E, Hb. split; auto. now f_equal.
    + now exists [].
Qed.

Lemma rstrip_decomp (s : text) :
  exists trail, blank trail = true /\ s = rstrip s ++ trail.
Proof.
  destruct (lstrip_decomp (rev s)) as [lead [Hb Hs]].
  exists (rev lead). rewrite blank_rev. split; auto.
  unfold rstrip. rewrite <- rev_app_distr, <- Hs. now rewrite rev_involutive.
Qed.

Lemma strip_decomp (s : text) :
  exists lead trail,
    blank lead = true /\ blank trail = true /\ s = lead ++ strip s ++ trail.
Proof.
  destruct (lstrip_decomp s) as [lead [Hl Hs]].
  destruct (rstrip_decomp (lstrip s)) as [trail [Ht Hs']].
  exists lead, trail. repeat split; auto.
  unfold strip. now rewrite <- Hs', <- Hs.
Qed.

Lemma strip_falsy_blank (s : text) : truthy (strip s) = false -> blank s = true.
Proof.
  destruct (strip_decomp s) as [lead [trail [Hl [Ht Hs]]]].
  destruct (strip s); [|discriminate]. intros _.
  rewrite Hs. simpl. now rewrite blank_app, Hl, Ht.
Qed.

Lemma lstrip_blank_app (s z : text) :
  blank s = true -> lstrip (s ++ z) = lstrip z.
Proof.
  induction s as [|c s IH]; simpl; auto.
  intros H. apply andb_prop in H as [Hc Hs]. rewrite Hc. auto.
Qed.

Lemma lstrip_nil_blank (s : text) : lstrip s = [] -> blank s = true.
Proof.
  destruct (lstrip_decomp s) as [lead [Hb Hs]]. intros E.
  rewrite E, app_nil_r in Hs. now subst.
Qed.

Lemma lstrip_app_keep (s z : text) :
  lstrip s <> [] -> lstrip (s ++ z) = lstrip s ++ z.
Proof.
  induction s as [|c s IH]; simpl; [congruence|].
  destruct (is_space c); auto.
Qed.

Lemma rstrip_app_sep (s : text) : rstrip (s ++ paragraph_sep) = rstrip s.
Proof. unfold rstrip. rewrite rev_app_distr. reflexivity. Qed.

Lemma rstrip_blank (s : text) : blank s = true -> rstrip s = [].
Proof.
  intros H. unfold rstrip. rewrite <- blank_rev in H.
  rewrite <- (app_nil_r (rev s)), (lstrip_blank_app _ [] H). reflexivity.
Qed.

(** The separator appended to the running buffer never shows in a chunk. *)
Lemma strip_app_sep (s : text) : strip (s ++ paragraph_sep) = strip s.
Proof.
  unfold strip. destruct (lstrip s) eqn:E.
  - rewrite (lstrip_blank_app _ _ (lstrip_nil_blank _ E)). reflexivity.
  - rewrite lstrip_app_keep by congruence. rewrite E. apply rstrip_app_sep.
Qed.

Lemma split_sep_cons2 (c c' : ascii) (s'' : text) :
  split_sep (c :: c' :: s'') =
  if Ascii.eqb c newline && Ascii.eqb c' newline
  then ([], let (p, ps) := split_sep s'' in p :: ps)
  else let (p, ps) := split_sep (c' :: s'') in (c :: p, ps).
Proof. reflexivity. Qed.

Lemma split_paragraphs_cover_aux (n : nat) : forall s,
  (List.length s <= n)%nat ->
  with_separators (split_paragraphs s) = s ++ paragraph_sep.
Proof.
  unfold split_paragraphs, with_separators.
  induction n as [|n IH]; intros s Hlen.
  - destruct s; [reflexivity | simpl in Hlen; lia].
  - destruct s as [|c [|c' s'']]; try reflexivity.
    simpl in Hlen. rewrite split_sep_cons2.
    destruct (Ascii.eqb c newline && Ascii.eqb c' newline) eqn:E.
    + apply andb_prop in E as [E1 E2].
      apply Ascii.eqb_eq in E1, E2. subst c c'.
      specialize (IH s'' ltac:(lia)).
      destruct (split_sep s'') as [p ps]. simpl in *. now rewrite IH.
    + specialize (IH (c' :: s'') ltac:(simpl; lia)).
      destruct (split_sep (c' :: s'')) as [p ps].
      cbn [flat_map] in *. rewrite <- !app_comm_cons. now rewrite IH.
Qed.

(** Splitting loses nothing: the paragraphs, each followed by the
    separator, spell the text followed by one separator. *)
Lemma split_paragraphs_cover (s : text) :
  with_separators (split_paragraphs s) = s ++ paragraph_sep.
Proof. now apply (split_paragraphs_cover_aux (List.length s)). Qed.

Lemma split_paragraphs_nonempty (s : text) : split_paragraphs s <> [].
Proof. unfold split_paragraphs. destruct (split_sep s). discriminate. Qed.

Lemma weave_snoc (gaps chunks : list text) (g c : text) :
  List.length gaps = List.length chunks ->
  weave (gaps ++ [g]) (chunks ++ [c]) = weave gaps chunks ++ g ++ c.
Proof.
  revert chunks.
  induction gaps as [|g0 gaps IH]; intros [|c0 chunks] Hlen;
    simpl in *; try discriminate.
  - now rewrite app_nil_r.
  - rewrite IH by lia. now rewrite <- !app_assoc.
Qed.

(** Emitting the stripped buffer, when it is not empty, keeps the text
    laid out as chunks between whitespace. *)
Lemma emit_chunk (chunks : list text) (cur : text) (gaps : list text)
    (tail : text) :
  List.length gaps = List.length chunks ->
  all_blank gaps = true -> blank tail = true ->
  exists gaps' tail',
    List.length gaps' =
      List.length (if truthy (strip cur)
                   then chunks ++ [strip cur] else chunks) /\
    all_blank gaps' = true /\ blank tail' = true /\
    weave gaps chunks ++ tail ++ cur =
    weave gaps' (if truthy (strip cur) then chunks ++ [strip cur] else chunks)
      ++ tail'.
Proof.
  intros Hlen Hg Ht.
  destruct (truthy (strip cur)) eqn:E.
  - destruct (strip_decomp cur) as [lead [trail [Hl [Hr Hs]]]].
    exists (gaps ++ [tail ++ lead]), trail.
    rewrite !length_app. simpl. split; [lia|].
    unfold all_blank in *. rewrite forallb_app. simpl.
    rewrite Hg, blank_app, Ht, Hl. repeat split; auto.
    rewrite weave_snoc by assumption.
    rewrite Hs at 1. now rewrite <- !app_assoc.
  - exists gaps, (tail ++ cur).
    rewrite blank_app, Ht, (strip_falsy_blank _ E). auto.
Qed.

Lemma split_loop_layout (max_tokens : Z) (paragraphs : list text) :
  forall chunks cur gaps tail,
    List.length gaps = List.length chunks ->
    all_blank gaps = true -> blank tail = true ->
    exists gaps' tail',
      List.length gaps' =
        List.length (fst (split_loop paragraphs max_tokens chunks cur)) /\
      all_blank gaps' = true /\ blank tail' = true /\
      weave gaps chunks ++ tail ++ cur ++ with_separators paragraphs =
      weave gaps' (fst (split_loop paragraphs max_tokens chunks cur))
        ++ tail' ++ snd (split_loop paragraphs max_tokens chunks cur).
Proof.
  induction paragraphs as [|para rest IH];
    intros chunks cur gaps tail Hlen Hg Ht; simpl.
  - exists gaps, tail. now rewrite app_nil_r.
  - destruct (Z.of_nat (List.length cur) + Z.of_nat (List.length para)
              <? max_tokens)%Z.
    + destruct (IH chunks (cur ++ para ++ paragraph_sep) gaps tail Hlen Hg Ht)
        as [gaps' [tail' [H1 [H2 [H3 H4]]]]].
      exists gaps', tail'. repeat split; auto.
      rewrite <- H4. now rewrite <- !app_assoc.
    + destruct (emit_chunk chunks cur gaps tail Hlen Hg Ht)
        as [gaps1 [tail1 [L1 [G1 [T1 E1]]]]].
      destruct (IH _ (para ++ paragraph_sep) gaps1 tail1 L1 G1 T1)
        as [gaps' [tail' [H1 [H2 [H3 H4]]]]].
      exists gaps', tail'. repeat split; auto.
      rewrite <- H4. rewrite !app_assoc in *. now rewrite E1.
Qed.

(** After at least one paragraph the running buffer ends with the
    separator. *)
Lemma split_loop_buffer (max_tokens : Z) (paragraphs : list text) :
  forall chunks cur,
    paragraphs <> [] ->
    exists body,
      snd (split_loop paragraphs max_tokens chunks cur) =
      body ++ paragraph_sep.
Proof.
  induction paragraphs as [|para rest IH]; intros chunks cur Hne;
    [congruence|].
  simpl. destruct rest as [|para' rest'].
  - destruct (_ <? _)%Z; simpl.
    + exists (cur ++ para). now rewrite app_assoc.
    + now exists para.
  - destruct (_ <? _)%Z; apply IH; discriminate.
Qed.

Lemma squeeze_app (s1 s2 : text) :
  squeeze (s1 ++ s2) = squeeze s1 ++ squeeze s2.
Proof. apply filter_app. Qed.

Lemma squeeze_blank (s : text) : blank s = true -> squeeze s = [].
Proof.
  induction s as [|c s IH]; simpl; auto.
  intros H. apply andb_prop in H as [Hc Hs]. rewrite Hc. simpl. auto.
Qed.

Lemma squeeze_weave (gaps : list text) : forall chunks,
  List.length gaps = List.length chunks -> all_blank gaps = true ->
  squeeze (weave gaps chunks) = flat_map squeeze chunks.
Proof.
  induction gaps as [|g gaps IH]; intros [|c chunks] Hlen Hg;
    simpl in *; try discriminate; auto.
  apply andb_prop in Hg as [Hg Hgs].
  rewrite !squeeze_app, (squeeze_blank _ Hg), IH by (auto; lia).
  reflexivity.
Qed.

Lemma squeeze_join (chunks : list text) :
  squeeze (join paragraph_sep chunks) = flat_map squeeze chunks.
Proof.
  induction chunks as [|c [|c' chunks] IH].
  - reflexivity.
  - simpl. now rewrite app_nil_r.
  - change (join paragraph_sep (c :: c' :: chunks))
      with (c ++ paragraph_sep ++ join paragraph_sep (c' :: chunks)).
    rewrite !squeeze_app, IH. reflexivity.
Qed.

(** C9. The text is the chunks of [split_text], in order, each preceded
    by whitespace only and with whitespace only after the last one; hence
    joining the chunks with the paragraph separator gives the text back up
    to that whitespace: nothing else is lost, repeated or moved. *)
Theorem split_text_round_trip (s : text) (max_tokens : Z) :
  (exists gaps tail,
      List.length gaps = List.length (split_text s max_tokens) /\
      all_blank gaps = true /\ blank tail = true /\
      s = weave gaps (split_text s max_tokens) ++ tail) /\
  squeeze (join paragraph_sep (split_text s max_tokens)) = squeeze s.
Proof.
  assert (H : exists gaps tail,
      List.length gaps = List.length (split_text s max_tokens) /\
      all_blank gaps = true /\ blank tail = true /\
      s = weave gaps (split_text s max_tokens) ++ tail).
  { unfold split_text.
    destruct (split_loop_layout max_tokens (split_paragraphs s) [] [] [] []
                eq_refl eq_refl eq_refl) as [gaps1 [tail1 [L1 [G1 [T1 E1]]]]].
    destruct (split_loop_buffer max_tokens (split_paragraphs s) [] []
                (split_paragraphs_nonempty s)) as [body Hbody].
    destruct (split_loop (split_paragraphs s) max_tokens [] [])
      as [chunks cur].
    simpl in *. subst cur.
    rewrite split_paragraphs_cover in E1.
    rewrite !app_assoc in E1. apply app_inv_tail in E1.
    rewrite <- app_assoc in E1.
    rewrite strip_app_sep.
    destruct (emit_chunk chunks body gaps1 tail1 L1 G1 T1)
      as [gaps [tail [L [G [T E]]]]].
    exists gaps, tail. repeat split; auto. now rewrite <- E. }
  split; auto.
  destruct H as [gaps [tail [L [G [T E]]]]].
  rewrite E at 2.
  rewrite squeeze_app, (squeeze_blank _ T), app_nil_r.
  rewrite squeeze_join. symmetry. now apply squeeze_weave.
Qed.

(* ------------------------------------------------------------------ *)
(** ** Repeated extraction *)

Section ExtractionFacts.
Variable completion : text -> nat -> text.
Variable json_loads : text -> option graph.

Lemma extract_loop_spec (chunk_text : text) (passes : list nat) :
  forall all_graphs log,
    extract_loop completion json_loads chunk_text passes all_graphs log =
    (all_graphs ++
       flat_map
         (fun i => match parsed_pass completion json_loads chunk_text i with
                   | Some g => [g] | None => [] end) passes,
     log ++ flat_map (pass_events completion json_loads chunk_text) passes).
Proof.
  unfold pass_events, parsed_pass.
  induction passes as [|i rest IH]; intros gs log; simpl.
  - now rewrite !app_nil_r.
  - destruct (json_loads (unfence (completion chunk_text i))) as [g|];
      rewrite IH; now rewrite <- !app_assoc.
Qed.

Lemma started_pass_events (chunk_text : text) (passes : list nat) :
  started_passes
    (flat_map (pass_events completion json_loads chunk_text) passes) = passes.
Proof.
  unfold pass_events, started_passes.
  induction passes as [|i rest IH]; simpl; auto.
  rewrite flat_map_app, IH.
  destruct (parsed_pass completion json_loads chunk_text i); reflexivity.
Qed.

Lemma failed_pass_events (chunk_text : text) (passes : list nat) :
  failed_passes
    (flat_map (pass_events completion json_loads chunk_text) passes) =
  filter (pass_fails completion json_loads chunk_text) passes.
Proof.
  unfold pass_events, failed_passes, pass_fails.
  induction passes as [|i rest IH]; simpl; auto.
  rewrite flat_map_app, IH.
  destruct (parsed_pass completion json_loads chunk_text i); reflexivity.
Qed.

Lemma started_passes_app (l1 l2 : list event) :
  started_passes (l1 ++ l2) = started_passes l1 ++ started_passes l2.
Proof. apply flat_map_app. Qed.

Lemma failed_passes_app (l1 l2 : list event) :
  failed_passes (l1 ++ l2) = failed_passes l1 ++ failed_passes l2.
Proof. apply flat_map_app. Qed.

Lemma all_fail_no_graph (chunk_text : text) (passes : list nat) :
  forallb (pass_fails completion json_loads chunk_text) passes = true ->
  flat_map (fun i => match parsed_pass completion json_loads chunk_text i with
                     | Some g => [g] | None => [] end) passes = [].
Proof.
  unfold pass_fails.
  induction passes as [|i rest IH]; simpl; auto.
  destruct (parsed_pass completion json_loads chunk_text i);
    [discriminate | auto].
Qed.

(** C5. Every one of the [num_repeats] passes is run whatever the
    earlier ones returned; the passes whose response does not parse are
    exactly the ones logged as parse errors, and they contribute nothing:
    the result is the merge of the parsed responses, in pass order; when
    no pass parses the result is the empty graph and nothing is raised. *)
Theorem extract_survives_parse_failures (chunk_text : text)
    (num_repeats : Z) :
  let passes := seq 0 (Z.to_nat num_repeats) in
  let out := extract_graph_from_chunk completion json_loads
               chunk_text num_repeats in
  started_passes (snd out) = passes /\
  failed_passes (snd out) =
    filter (pass_fails completion json_loads chunk_text) passes /\
  fst out =
    match parsed_passes completion json_loads chunk_text num_repeats with
    | [] => Ok empty_graph
    | g :: gs => merge_graph_data (g :: gs)
    end /\
  (forallb (pass_fails completion json_loads chunk_text) passes = true ->
   fst out = Ok empty_graph).
Proof.
  intros passes out. subst out. unfold extract_graph_from_chunk.
  fold passes. rewrite extract_loop_spec. simpl app.
  unfold parsed_passes. fold passes.
  set (gs := flat_map
               (fun i =>
                  match parsed_pass completion json_loads chunk_text i with
                  | Some g => [g] | None => [] end) passes).
  set (ev := flat_map (pass_events completion json_loads chunk_text) passes).
  assert (Hlog : forall extra,
    started_passes (ev ++ extra) = passes ++ started_passes extra /\
    failed_passes (ev ++ extra) =
      filter (pass_fails completion json_loads chunk_text) passes ++
      failed_passes extra).
  { intros extra. subst ev.
    now rewrite started_passes_app, failed_passes_app,
      started_pass_events, failed_pass_events. }
  destruct gs as [|g gs'] eqn:E.
  - destruct (Hlog [NoSuccessfulParses]) as [H1 H2].
    simpl in H1, H2. rewrite app_nil_r in H1, H2. simpl. auto.
  - destruct (Hlog []) as [H1 H2]. rewrite !app_nil_r in H1, H2.
    simpl. repeat split; auto.
    intros Hall. apply all_fail_no_graph in Hall.
    subst gs. congruence.
Qed.
End ExtractionFacts.

(* ------------------------------------------------------------------ *)
(** ** The relationship graph *)

Module nxFacts.
Import nx.

Lemma is_entity_has_node n G : is_entity n G = true -> has_node n G = true.
Proof.
  unfold is_entity, has_node, PyDict.mem.
  destruct (PyDict.get n (node G)); congruence.
Qed.

Lemma is_entity_add_node_same n G :
  is_entity n (add_node n entity_tag G) = true.
Proof.
  unfold is_entity, add_node. simpl.
  rewrite PyDictFacts.get_set_same.
  unfold PyDict.update_all. simpl.
  now rewrite PyDictFacts.get_set_same.
Qed.

Lemma is_entity_add_node m n G :
  is_entity n G = true -> is_entity n (add_node m entity_tag G) = true.
Proof.
  destruct (String.eqb n m) eqn:E.
  - apply String.eqb_eq in E. subst. intros _. apply is_entity_add_node_same.
  - apply String.eqb_neq in E. unfold is_entity, add_node. simpl.
    now rewrite PyDictFacts.get_set_other.
Qed.

Lemma next_free_unused fuel k used :
  existsb (Nat.eqb k) used = false -> next_free (S fuel) k used = k.
Proof. intros H. simpl. now rewrite H. Qed.

Lemma new_edge_key_dense u v G :
  keys_dense G -> new_edge_key u v G = List.length (keydict u v G).
Proof.
  intros Hd. unfold new_edge_key. apply next_free_unused.
  destruct (existsb _ _) eqn:E; auto.
  apply existsb_exists in E as [k [Hin Hk]].
  apply Nat.eqb_eq in Hk. subst k.
  unfold keydict in Hin. apply in_map_iff in Hin as [e [Hk Hin]].
  apply filter_In in Hin as [Hin Hj].
  specialize (Hd e Hin). unfold joins in Hj.
  apply andb_prop in Hj as [Hu Hv].
  apply String.eqb_eq in Hu, Hv. subst u v.
  unfold keydict in Hd. lia.
Qed.

(** With both endpoints present and the keys dense, [add_edge] adds
    exactly one edge and no node. *)
Lemma add_edge_appends u v attr G :
  keys_dense G -> has_node u G = true -> has_node v G = true ->
  add_edge u v attr G =
  {| node := node G;
     edges := edges G ++
              [{| source := u; target := v;
                  key := List.length (keydict u v G);
                  data := PyDict.update_all attr [] |}] |}.
Proof.
  intros Hd Hu Hv. unfold add_edge. unfold has_node in Hu, Hv.
  rewrite Hu, Hv, (new_edge_key_dense _ _ _ Hd).
  destruct (existsb _ (edges G)) eqn:E; auto.
  apply existsb_exists in E as [e [Hin He]].
  apply andb_prop in He as [Hj Hk]. apply Nat.eqb_eq in Hk.
  specialize (Hd e Hin). unfold joins in Hj.
  apply andb_prop in Hj as [Hu' Hv'].
  apply String.eqb_eq in Hu', Hv'. subst u v. lia.
Qed.

Lemma keydict_snoc u v nodes es e :
  keydict u v {| node := nodes; edges := es ++ [e] |} =
  keydict u v {| node := nodes; edges := es |} ++
  (if joins u v e then [key e] else []).
Proof.
  unfold keydict. simpl. rewrite filter_app, map_app. simpl.
  now destruct (joins u v e).
Qed.

Lemma keys_dense_snoc u v attr G :
  keys_dense G ->
  keys_dense
    {| node := node G;
       edges := edges G ++
                [{| source := u; target := v;
                    key := List.length (keydict u v G);
                    data := attr |}] |}.
Proof.
  intros Hd e Hin. simpl in Hin. rewrite keydict_snoc, length_app.
  apply in_app_iff in Hin as [Hin|[<-|[]]].
  - specialize (Hd e Hin). destruct G; simpl in *. unfold keydict in *.
    simpl in *. lia.
  - simpl. unfold joins. simpl. rewrite !String.eqb_refl. simpl.
    destruct G; simpl. unfold keydict. simpl. lia.
Qed.
End nxFacts.

Section RGraphFacts.
Import nx.

Lemma assembled_empty : assembled nx.empty.
Proof. split; intros e []. Qed.

Lemma keys_dense_add_node n attr G :
  keys_dense G -> keys_dense (add_node n attr G).
Proof. intros Hd e Hin. exact (Hd e Hin). Qed.

(** One round of the inner loop: tag both endpoints, then add the edge. *)
Lemma add_fact_step e1 e2 r G :
  assembled G ->
  let G' := add_edge e1 e2 (fact_attr r)
              (add_node e2 entity_tag (add_node e1 entity_tag G)) in
  assembled G' /\
  map edge_payload (edges G') =
    map edge_payload (edges G) ++ [(e1, e2, fact_attr r)] /\
  (forall n, is_entity n G = true -> is_entity n G' = true) /\
  is_entity e1 G' = true /\ is_entity e2 G' = true.
Proof.
  intros [Hd Ht]. set (G2 := add_node e2 entity_tag (add_node e1 entity_tag G)).
  assert (Hd2 : keys_dense G2) by (now apply keys_dense_add_node).
  assert (Hmono : forall n, is_entity n G = true -> is_entity n G2 = true).
  { intros n Hn. now do 2 apply nxFacts.is_entity_add_node. }
  assert (H1 : is_entity e1 G2 = true).
  { apply nxFacts.is_entity_add_node, nxFacts.is_entity_add_node_same. }
  assert (H2 : is_entity e2 G2 = true)
    by apply nxFacts.is_entity_add_node_same.
  intros G'. subst G'.
  rewrite (nxFacts.add_edge_appends e1 e2 (fact_attr r) G2 Hd2
             (nxFacts.is_entity_has_node _ _ H1)
             (nxFacts.is_entity_has_node _ _ H2)).
  change (PyDict.update_all (fact_attr r) []) with (fact_attr r).
  split; [split|split; [|split; [|split]]].
  - apply (nxFacts.keys_dense_snoc e1 e2 (fact_attr r) G2 Hd2).
  - intros e Hin. simpl in Hin.
    apply in_app_iff in Hin as [Hin|[<-|[]]]; simpl.
    + destruct (Ht e Hin). split; now apply Hmono.
    + split; [exact H1 | exact H2].
  - simpl. now rewrite map_app.
  - intros n Hn. now apply Hmono.
  - exact H1.
  - exact H2.
Qed.

Lemma add_facts_spec e1 e2 facts : forall G,
  assembled G ->
  assembled (add_facts e1 e2 facts G) /\
  map edge_payload (edges (add_facts e1 e2 facts G)) =
    map edge_payload (edges G) ++ map (fun r => (e1, e2, fact_attr r)) facts /\
  (forall n, is_entity n G = true ->
             is_entity n (add_facts e1 e2 facts G) = true) /\
  (facts <> [] ->
   is_entity e1 (add_facts e1 e2 facts G) = true /\
   is_entity e2 (add_facts e1 e2 facts G) = true).
Proof.
  induction facts as [|r rest IH]; intros G HG.
  - simpl. rewrite app_nil_r.
    split; [exact HG|]. split; [reflexivity|]. split; [auto|congruence].
  - cbn [add_facts].
    destruct (add_fact_step e1 e2 r G HG) as [HG' [He [Hm [H1 H2]]]].
    destruct (IH _ HG') as [HG'' [He' [Hm' _]]].
    split; [exact HG''|]. split; [|split].
    + rewrite He', He. simpl. now rewrite <- app_assoc.
    + intros n Hn. auto.
    + intros _. auto.
Qed.

Lemma build_r_loop_spec entries : forall G,
  assembled G -> forallb r_entry_ok entries = true ->
  exists G',
    build_r_loop entries G = Ok G' /\ assembled G' /\
    map edge_payload (edges G') =
      map edge_payload (edges G) ++ flat_map entry_facts entries /\
    (forall n, is_entity n G = true -> is_entity n G' = true) /\
    (forall entry, In entry entries -> facts_of entry <> [] ->
       is_entity (get_default (E1 entry) "") G' = true /\
       is_entity (get_default (E2 entry) "") G' = true).
Proof.
  induction entries as [|entry rest IH]; intros G HG Hok.
  - exists G. simpl. rewrite app_nil_r.
    split; [reflexivity|]. split; [exact HG|]. split; [reflexivity|].
    split; [auto|]. intros entry [].
  - simpl in Hok. apply andb_prop in Hok as [Hentry Hrest].
    unfold r_entry_ok in Hentry. simpl.
    destruct (E1 entry) as [e1|] eqn:HE1; [|discriminate].
    destruct (E2 entry) as [e2|] eqn:HE2; [|discriminate]. simpl.
    destruct (add_facts_spec e1 e2 (get_default (R_facts entry) []) G HG)
      as [HG1 [He1 [Hm1 Hne1]]].
    destruct (IH _ HG1 Hrest) as [G' [Hrun [HG' [He' [Hm' Hin']]]]].
    exists G'. split; [exact Hrun|]. split; [exact HG'|].
    split; [|split].
    + rewrite He', He1. unfold entry_facts. rewrite HE1, HE2. simpl.
      now rewrite <- app_assoc.
    + auto.
    + intros entry' [<-|Hin] Hfacts.
      * rewrite HE1, HE2. simpl.
        destruct (Hne1 Hfacts). split; now apply Hm'.
      * now apply Hin'.
Qed.

(** What [build_r_graph] returns on an ["R"] list whose entries all
    name both endpoints. *)
Lemma build_r_graph_spec (b : builder) (d : extraction)
    (rs : list r_entry) :
  graph_data b = Some d -> data_R d = Some rs ->
  forallb r_entry_ok rs = true ->
  exists G,
    build_r_graph b =
      Ok (G, {| graph_data := graph_data b; R_graph_nx := Some G;
                L_dict := L_dict b |}) /\
    map edge_payload (edges G) = flat_map entry_facts rs /\
    (forall entry, In entry rs -> facts_of entry <> [] ->
       is_entity (get_default (E1 entry) "") G = true /\
       is_entity (get_default (E2 entry) "") G = true) /\
    endpoints_tagged G.
Proof.
  intros Hd HR Hok. unfold build_r_graph. rewrite Hd, HR.
  destruct (build_r_loop_spec rs nx.empty assembled_empty Hok)
    as [G [Hrun [[_ Ht] [He [_ Hin]]]]].
  exists G. rewrite Hrun. simpl.
  split; [reflexivity|]. split; [exact He|]. split; [exact Hin|exact Ht].
Qed.
End RGraphFacts.

(* ------------------------------------------------------------------ *)
(** ** The label dictionary *)

Lemma set_set {V : Type} (k : string) (v v' : V) (d : PyDict.t V) :
  PyDict.set k v (PyDict.set k v' d) = PyDict.set k v d.
Proof.
  induction d as [|[k0 v0] d IH]; simpl.
  - now rewrite String.eqb_refl.
  - destruct (String.eqb k k0) eqn:E; simpl; rewrite E; auto.
    now rewrite IH.
Qed.

Lemma build_l_step (entry : l_entry) (rest : list l_entry)
    (d : PyDict.t (list label_entry)) :
  l_entry_ok entry = true ->
  build_l_loop (entry :: rest) d =
  build_l_loop rest (observe (entity_of entry) (observation entry) d).
Proof.
  unfold l_entry_ok, observe, entity_of, observation. simpl.
  destruct (Label entry) as [lbl|]; [|discriminate].
  destruct (Entity entry) as [entity|]; [|discriminate].
  destruct (entry_time entry) as [tm|]; [|discriminate].
  intros _. simpl. unfold PyDict.mem.
  destruct (PyDict.get entity d) as [l|] eqn:E; simpl.
  - now rewrite E.
  - rewrite PyDictFacts.get_set_same. simpl. now rewrite set_set.
Qed.

Lemma build_l_loop_ok (entries : list l_entry) : forall d,
  forallb l_entry_ok entries = true ->
  build_l_loop entries d = Ok (observe_all entries d).
Proof.
  unfold observe_all.
  induction entries as [|entry rest IH]; intros d Hok; [reflexivity|].
  simpl in Hok. apply andb_prop in Hok as [Hentry Hrest].
  rewrite (build_l_step _ _ _ Hentry). now apply IH.
Qed.

Lemma build_l_loop_raises (entries : list l_entry) : forall d,
  forallb l_entry_ok entries = false ->
  exists k, build_l_loop entries d = Raise (KeyError k) /\ In k l_entry_keys.
Proof.
  induction entries as [|entry rest IH]; intros d Hbad; [discriminate|].
  simpl in Hbad. destruct (l_entry_ok entry) eqn:Hentry.
  - rewrite (build_l_step _ _ _ Hentry). now apply IH.
  - clear Hbad IH. unfold l_entry_ok in Hentry. simpl.
    destruct (Label entry); simpl;
      [|exists "Label"; simpl; auto].
    destruct (Entity entry); simpl;
      [|exists "Entity"; simpl; auto].
    destruct (entry_time entry); simpl;
      [discriminate|exists "time"; simpl; auto].
Qed.

Lemma get_observe (k e : string) (x : label_entry)
    (d : PyDict.t (list label_entry)) :
  PyDict.get k (observe e x d) =
  if String.eqb k e
  then Some (get_default (PyDict.get k d) [] ++ [x])
  else PyDict.get k d.
Proof.
  unfold observe. destruct (String.eqb k e) eqn:E.
  - apply String.eqb_eq in E. subst. apply PyDictFacts.get_set_same.
  - apply PyDictFacts.get_set_other. now apply String.eqb_neq.
Qed.

Lemma get_observe_all (k : string) (entries : list l_entry) : forall d,
  PyDict.get k (observe_all entries d) =
  match PyDict.get k d with
  | Some l => Some (l ++ observations_of k entries)
  | None =>
      match observations_of k entries with
      | [] => None
      | obs => Some obs
      end
  end.
Proof.
  unfold observe_all, observations_of.
  induction entries as [|entry rest IH]; intros d; simpl.
  - destruct (PyDict.get k d); auto. now rewrite app_nil_r.
  - rewrite IH, get_observe.
    destruct (String.eqb k (entity_of entry)); simpl; auto.
    destruct (PyDict.get k d); simpl; auto.
    now rewrite <- app_assoc.
Qed.

Lemma keys_observe_all (entries : list l_entry) : forall d,
  PyDict.keys (observe_all entries d) =
  PyDict.keys d ++ first_occurrences (PyDict.keys d) (map entity_of entries).
Proof.
  unfold observe_all.
  induction entries as [|entry rest IH]; intros d; simpl.
  - now rewrite app_nil_r.
  - rewrite IH. unfold observe.
    rewrite PyDictFacts.keys_set, <- PyDictFacts.mem_keys.
    destruct (PyDict.mem (entity_of entry) d); auto.
    rewrite <- app_assoc. simpl. do 2 f_equal.
    apply first_occurrences_ext. intros x. rewrite in_app_iff. simpl. tauto.
Qed.

(** C7. On an ["L"] list whose entries are complete, the dictionary lists
    the entities in the order they first appear, and under each entity its
    (label, time) pairs exactly as the input has them for that entity: same
    order, repetitions kept. *)
Theorem build_l_dict_keeps_input_order (b : builder) (d : extraction)
    (ls : list l_entry) :
  graph_data b = Some d -> data_L d = Some ls ->
  forallb l_entry_ok ls = true ->
  exists dict,
    build_l_dict b =
      Ok (dict, {| graph_data := graph_data b; R_graph_nx := R_graph_nx b;
                   L_dict := Some dict |}) /\
    PyDict.keys dict = first_occurrences [] (map entity_of ls) /\
    (forall entity,
        PyDict.get entity dict =
        match observations_of entity ls with
        | [] => None
        | obs => Some obs
        end).
Proof.
  intros Hd HL Hok. unfold build_l_dict. rewrite Hd, HL.
  rewrite (build_l_loop_ok _ _ Hok). simpl.
  eexists. split; [reflexivity|]. split.
  - apply (keys_observe_all ls []).
  - intros entity. apply (get_observe_all entity ls []).
Qed.

Lemma map_flat_map {A B C : Type} (f : B -> C) (g : A -> list B)
    (l : list A) :
  map f (flat_map g l) = flat_map (fun x => map f (g x)) l.
Proof.
  induction l as [|x l IH]; simpl; auto. now rewrite map_app, IH.
Qed.

(** C6, as the code has it.  In ["R"], a fact that lacks ["time"],
    ["relationship"] or ["event"] gives an edge with the empty string for
    it, and the assembler does not fail for that.  In ["L"] nothing is
    optional: [build_l_dict] succeeds when every entry has ["Label"],
    ["Entity"] and ["time"], and raises [KeyError] for one of these keys
    otherwise. *)
Theorem assembler_optional_fields (b : builder) (d : extraction) :
  graph_data b = Some d ->
  (forall rs, data_R d = Some rs -> forallb r_entry_ok rs = true ->
     exists G b',
       build_r_graph b = Ok (G, b') /\
       map edge_attributes (nx.edges G) =
       map fact_attributes (flat_map facts_of rs)) /\
  (forall ls, data_L d = Some ls ->
     (forallb l_entry_ok ls = true ->
      exists dict b', build_l_dict b = Ok (dict, b')) /\
     (forallb l_entry_ok ls = false ->
      exists k, build_l_dict b = Raise (KeyError k) /\ In k l_entry_keys)).
Proof.
  intros Hd. split.
  - intros rs HR Hok.
    destruct (build_r_graph_spec b d rs Hd HR Hok) as [G [Hrun [He _]]].
    exists G. eexists. split; [exact Hrun|].
    assert (Hmap : map edge_attributes (nx.edges G) =
                   map (fun p => (PyDict.get "time" (snd p),
                                  PyDict.get "relationship" (snd p),
                                  PyDict.get "event" (snd p)))
                       (map edge_payload (nx.edges G))).
    { rewrite map_map. reflexivity. }
    rewrite Hmap, He, !map_flat_map. apply flat_map_ext. intros entry.
    unfold entry_facts, facts_of. rewrite map_map. reflexivity.
  - intros ls HL. unfold build_l_dict. rewrite Hd, HL. split; intros Hok.
    + rewrite (build_l_loop_ok _ _ Hok). simpl. eauto.
    + destruct (build_l_loop_raises ls [] Hok) as [k [Hrun Hk]].
      exists k. rewrite Hrun. auto.
Qed.

(** C8, as the code has it.  For an ["R"] list whose entries name both
    endpoints: the edges of the graph are, in order, one per fact, from
    [E1] to [E2] with the fact's time, relationship and event; both
    endpoints of every entry with at least one fact are nodes tagged as
    entities; and both endpoints of every edge are such nodes. *)
Theorem build_r_graph_edges_and_endpoints (b : builder) (d : extraction)
    (rs : list r_entry) :
  graph_data b = Some d -> data_R d = Some rs ->
  forallb r_entry_ok rs = true ->
  exists G,
    build_r_graph b =
      Ok (G, {| graph_data := graph_data b; R_graph_nx := Some G;
                L_dict := L_dict b |}) /\
    map edge_payload (nx.edges G) = flat_map entry_facts rs /\
    nx.number_of_edges G = List.length (flat_map facts_of rs) /\
    (forall entry, In entry rs -> facts_of entry <> [] ->
       is_entity (get_default (E1 entry) "") G = true /\
       is_entity (get_default (E2 entry) "") G = true) /\
    (forall e, In e (nx.edges G) ->
       is_entity (nx.source e) G = true /\ is_entity (nx.target e) G = true).
Proof.
  intros Hd HR Hok.
  destruct (build_r_graph_spec b d rs Hd HR Hok) as [G [Hrun [He [Hin Ht]]]].
  exists G. split; [exact Hrun|]. split; [exact He|].
  split; [|split; [exact Hin|exact Ht]].
  unfold nx.number_of_edges.
  rewrite <- (length_map edge_payload), He. clear.
  induction rs as [|entry rest IH]; simpl; auto.
  rewrite !length_app, IH. unfold entry_facts, facts_of.
  now rewrite length_map.
Qed.

(* ------------------------------------------------------------------ *)
(** ** Entity resolution *)

(** *** The order of binary64 numbers

    [SFcompare] orders the numbers that are not NaN: by sign, then by
    exponent, then by mantissa, the two zeros being equal. *)

Lemma SFltb_trans (a b c : spec_float) :
  SFltb a b = true -> SFltb b c = true -> SFltb a c = true.
Proof.
  unfold SFltb, SFcompare.
  float_cases a; float_cases b; float_cases c;
    try discriminate; try reflexivity; intros H1 H2; compare_cases.
Qed.

Lemma SFltb_leb_trans (a b c : spec_float) :
  SFltb a b = true -> SFleb b c = true -> SFltb a c = true.
Proof.
  unfold SFltb, SFleb, SFcompare.
  float_cases a; float_cases b; float_cases c;
    try discriminate; try reflexivity; intros H1 H2; compare_cases.
Qed.

Lemma SFltb_irrefl (a : spec_float) : SFltb a a = false.
Proof.
  unfold SFltb, SFcompare. float_cases a; try reflexivity; compare_cases.
Qed.

Lemma SFltb_not_leb (a b : spec_float) :
  SFltb a b = true -> SFleb b a = false.
Proof.
  unfold SFltb, SFleb, SFcompare.
  float_cases a; float_cases b; try discriminate; try reflexivity;
    intros H1; compare_cases.
Qed.

Lemma SFltb_asym (a b : spec_float) :
  SFltb a b = true -> SFltb b a = false.
Proof.
  unfold SFltb, SFcompare.
  float_cases a; float_cases b; try discriminate; try reflexivity;
    intros H1; compare_cases.
Qed.


Lemma SFmul_comm (prec emax : Z) (a b : spec_float) :
  SFmul prec emax a b = SFmul prec emax b a.
Proof.
  destruct a as [sa|sa| |sa ma ea], b as [sb|sb| |sb mb eb]; simpl;
    rewrite ?(xorb_comm sa sb); try reflexivity.
  now rewrite (Pos.mul_comm ma mb), (Z.add_comm ea eb).
Qed.

Section FloatOrder.
Local Open Scope float_scope.

Lemma float_ltb_trans (a b c : float) :
  (a <? b) = true -> (b <? c) = true -> (a <? c) = true.
Proof. rewrite !ltb_spec. apply SFltb_trans. Qed.

Lemma float_ltb_leb_trans (a b c : float) :
  (a <? b) = true -> (b <=? c) = true -> (a <? c) = true.
Proof. rewrite !ltb_spec, leb_spec. apply SFltb_leb_trans. Qed.

Lemma float_ltb_irrefl (a : float) : (a <? a) = false.
Proof. rewrite ltb_spec. apply SFltb_irrefl. Qed.

Lemma float_ltb_not_leb (a b : float) :
  (a <? b) = true -> (b <=? a) = false.
Proof. rewrite ltb_spec, leb_spec. apply SFltb_not_leb. Qed.

Lemma float_ltb_asym (a b : float) :
  (a <? b) = true -> (b <? a) = false.
Proof. rewrite !ltb_spec. apply SFltb_asym. Qed.


(** A bound that is not exceeded by [b] is not exceeded by what lies
    below [b]. *)
Lemma float_ltb_false_below (a b c : float) :
  (a <? b) = true -> (a <? c) = false -> (b <? c) = false.
Proof.
  intros Hab Hac. destruct (b <? c) eqn:E; auto.
  now rewrite (float_ltb_trans _ _ _ Hab E) in Hac.
Qed.

Lemma float_leb_false_below (a b c : float) :
  (a <? b) = true -> (a <? c) = false -> (b <=? c) = false.
Proof.
  intros Hab Hac. destruct (b <=? c) eqn:E; auto.
  now rewrite (float_ltb_leb_trans _ _ _ Hab E) in Hac.
Qed.

Lemma float_mul_comm (x y : float) : x * y = y * x.
Proof.
  apply Prim2SF_inj. rewrite !mul_spec. apply SFmul_comm.
Qed.
End FloatOrder.

Section CosineFacts.
Local Open Scope float_scope.

Lemma dot_from_defined (a : vector) : forall b acc,
  List.length b = List.length a -> exists d, dot_from acc a b = Ok d.
Proof.
  induction a as [|x a IH]; intros [|y b] acc Hlen; simpl in *;
    try discriminate.
  - now exists acc.
  - apply IH. lia.
Qed.

Lemma dot_defined (a b : vector) :
  List.length b = List.length a -> exists d, dot a b = Ok d.
Proof. apply dot_from_defined. Qed.

Lemma cosine_defined (a b : vector) :
  List.length b = List.length a -> exists s, cosine_similarity a b = Ok s.
Proof.
  intros Hlen. destruct (dot_defined a b Hlen) as [d Hd].
  unfold cosine_similarity. rewrite Hd. simpl. eauto.
Qed.
End CosineFacts.

Section ScanFacts.
Local Open Scope float_scope.
Variable query_emb : vector.

Lemma score_at_nil j s : ~ score_at query_emb [] j s.
Proof. intros [item [H _]]. destruct j; discriminate. Qed.

Lemma score_at_zero item rest s :
  score_at query_emb (item :: rest) 0 s <->
  cosine_similarity query_emb (item_embedding item) = Ok s.
Proof.
  split.
  - intros [item' [H Hs]]. simpl in H. now inversion H; subst.
  - intros Hs. now exists item.
Qed.

Lemma score_at_succ item rest j s :
  score_at query_emb (item :: rest) (S j) s <-> score_at query_emb rest j s.
Proof. reflexivity. Qed.


(** The scan either finds nothing above the initial score, and keeps the
    initial pair, or ends on the earliest entry of maximum score. *)
Lemma scan_index_spec (index : list index_item) :
  forall best_name best_score,
    same_dimension query_emb index ->
    exists name score,
      scan_index query_emb index best_name best_score = Ok (name, score) /\
      ((name = best_name /\ score = best_score /\
        forall j s, score_at query_emb index j s -> (best_score <? s) = false)
       \/
       (exists k item,
          nth_error index k = Some item /\
          name = Some (item_name item) /\
          (best_score <? score) = true /\
          earliest_maximum query_emb index k score)).
Proof.
  induction index as [|item rest IH]; intros bn bs Hdim.
  - exists bn, bs. split; [reflexivity|]. left.
    split; [reflexivity|]. split; [reflexivity|].
    intros j s H. now apply score_at_nil in H.
  - inversion Hdim as [|? ? Hitem Hrest]; subst.
    destruct (cosine_defined query_emb (item_embedding item) Hitem)
      as [sim Hsim].
    cbn [scan_index]. rewrite Hsim. cbn [bind].
    destruct (bs <? sim) eqn:Hcmp.
    + destruct (IH (Some (item_name item)) sim Hrest)
        as [name [score [Hrun [[Hn [Hs Hall]]|[k [it [Hk [Hn [Hlt Hmax]]]]]]]]];
        exists name, score; (split; [exact Hrun|]); right.
      * subst name score. exists 0%nat, item.
        split; [reflexivity|]. split; [reflexivity|]. split; [exact Hcmp|].
        split; [now apply score_at_zero|]. split.
        -- intros [|j] s' H.
           ++ apply score_at_zero in H. rewrite Hsim in H.
              inversion H; subst s'. apply float_ltb_irrefl.
           ++ apply score_at_succ in H. now apply Hall in H.
        -- intros j s' Hj. lia.
      * destruct Hmax as [Hat [Hall Hearly]].
        exists (S k), it.
        split; [exact Hk|]. split; [exact Hn|].
        split; [exact (float_ltb_trans _ _ _ Hcmp Hlt)|].
        split; [now apply score_at_succ|]. split.
        -- intros [|j] s' H.
           ++ apply score_at_zero in H. rewrite Hsim in H.
              inversion H; subst s'. now apply float_ltb_asym.
           ++ apply score_at_succ in H. now apply Hall in H.
        -- intros [|j] s' Hj H.
           ++ apply score_at_zero in H. rewrite Hsim in H.
              inversion H; subst s'. now apply float_ltb_not_leb.
           ++ apply score_at_succ in H. apply (Hearly j); auto. lia.
    + destruct (IH bn bs Hrest)
        as [name [score [Hrun [[Hn [Hs Hall]]|[k [it [Hk [Hn [Hlt Hmax]]]]]]]]];
        exists name, score; (split; [exact Hrun|]).
      * left. split; [exact Hn|]. split; [exact Hs|].
        intros [|j] s' H.
        -- apply score_at_zero in H. rewrite Hsim in H.
           now inversion H; subst s'.
        -- apply score_at_succ in H. now apply Hall in H.
      * right. destruct Hmax as [Hat [Hall Hearly]].
        exists (S k), it.
        split; [exact Hk|]. split; [exact Hn|]. split; [exact Hlt|].
        split; [now apply score_at_succ|]. split.
        -- intros [|j] s' H.
           ++ apply score_at_zero in H. rewrite Hsim in H.
              inversion H; subst s'.
              exact (float_ltb_false_below _ _ _ Hlt Hcmp).
           ++ apply score_at_succ in H. now apply Hall in H.
        -- intros [|j] s' Hj H.
           ++ apply score_at_zero in H. rewrite Hsim in H.
              inversion H; subst s'.
              exact (float_leb_false_below _ _ _ Hlt Hcmp).
           ++ apply score_at_succ in H. apply (Hearly j); auto. lia.
Qed.

End ScanFacts.


Section ResolverSample.
Import Samples.
Local Open Scope float_scope.

(** The query scores about 1 on Paris and 0 on London; with the
    threshold 0.55 the resolver answers Paris. *)
Example resolve_paris :
  find_best_matching_node embed_as_paris (txt "Where is the Louvre?")
    cities 0.55 = Ok (Some "Paris"%string).
Proof. reflexivity. Qed.

(** Below the threshold there is no match. *)
Example resolve_nothing :
  find_best_matching_node embed_as_paris (txt "Where is the Louvre?")
    [london] 0.55 = Ok None.
Proof. reflexivity. Qed.

(** Vectors of different lengths cannot be compared. *)
Example resolve_shape_mismatch :
  find_best_matching_node embed_as_paris (txt "Where is the Louvre?")
    [{| item_name := "Rome"; item_embedding := [1] |}] 0.55 =
  Raise (ValueError "shapes not aligned").
Proof. reflexivity. Qed.

(** In binary64 [1e10 + 1e-8] is [1e10]: the similarity of a long vector
    to itself is exactly [1.0], to its opposite exactly [-1.0]. *)
Example cosine_similarity_rounds_to_one :
  cosine_similarity [100000; 0] [100000; 0] = Ok 1 /\
  cosine_similarity [100000; 0] [-100000; 0] = Ok (-1).
Proof. split; reflexivity. Qed.

(** Overflow: the norm of [[1e200]] is infinite, and the similarity to a
    zero vector is NaN. *)
Example cosine_similarity_overflow :
  cosine_similarity [1e200] [0] = Ok nan.
Proof. reflexivity. Qed.

(** Two entries whose similarities both round to [1.0]: the earlier one
    is kept, and it meets the threshold [1.0]. *)
Example resolve_rounded_tie :
  find_best_matching_node embed_far (txt "Where?")
    [{| item_name := "A"; item_embedding := [100000; 0] |};
     {| item_name := "B"; item_embedding := [200000; 0] |}] 1 =
  Ok (Some "A"%string).
Proof. reflexivity. Qed.
End ResolverSample.

Section OnSamples.
Import Samples.

Example merge_passes :
  merge_graph_data passes =
  Ok {| nodes := Some [alice_v2; bob];
        relationships := Some [met; met; met] |}.
Proof. reflexivity. Qed.

Example merge_anonymous_raises :
  merge_graph_data
    [pass1; {| nodes := Some [anonymous]; relationships := None |}] =
  Raise (KeyError "id").
Proof. reflexivity. Qed.

Example split_text_sample :
  map string_of_list_ascii
      (split_text
         (txt "one" ++ paragraph_sep ++ txt "   " ++ paragraph_sep ++
          txt "two  words" ++ paragraph_sep ++ txt "three ") 6) =
  ["one"; "two  words"; "three"]%string.
Proof. reflexivity. Qed.

Example split_text_long_paragraph :
  map string_of_list_ascii (split_text (txt "abcdefghijkl") 3) =
  ["abcdefghijkl"]%string.
Proof. reflexivity. Qed.

Example build_l_dict_sample :
  exists b',
    build_l_dict a_builder =
    Ok ([("Alice", [{| label := "Person"; time := "2024-01" |};
                    {| label := "Instructor"; time := "2024-02" |};
                    {| label := "Person"; time := "2024-01" |}]);
         ("Bob", [{| label := "Person"; time := "2024-01" |}])], b').
Proof. eexists. reflexivity. Qed.

Example build_r_graph_sample :
  exists G b',
    build_r_graph a_builder = Ok (G, b') /\
    PyDict.keys (nx.node G) = ["Alice"; "Bob"] /\
    map edge_attributes (nx.edges G) =
    [(Some "2024-01", Some "met", Some "Alice met Bob at a conference.");
     (Some "", Some "met", Some "")].
Proof. do 2 eexists. split; [reflexivity|]. split; reflexivity. Qed.

(** C1 on the two sample passes. *)
Lemma merge_last_seen_wins_witness :
  well_formed passes /\
  exists g ns,
    merge_graph_data passes = Ok g /\
    nodes g = Some ns /\
    NoDup (map id_of ns) /\
    (forall i, lookup_node i ns = last_seen i (all_nodes passes)) /\
    (forall g', merge_graph_data passes = Ok g' -> g' = g).
Proof.
  split; [reflexivity|].
  apply (merge_last_seen_wins passes). reflexivity.
Defined.

(** C2 on the two sample passes. *)
Lemma merge_relationships_concatenated_witness :
  well_formed passes /\
  exists g,
    merge_graph_data passes = Ok g /\
    relationships g = Some (all_relationships passes) /\
    List.length (all_relationships passes) =
    list_sum (map (fun g0 => List.length (get_default (relationships g0) []))
                  passes).
Proof.
  split; [reflexivity|].
  apply (merge_relationships_concatenated passes). reflexivity.
Defined.

(** C3 on the two sample passes. *)
Lemma merge_idempotent_witness :
  well_formed passes /\
  exists g, merge_graph_data passes = Ok g /\ merge_graph_data [g] = Ok g.
Proof.
  split; [reflexivity|].
  apply (merge_idempotent passes). reflexivity.
Defined.

(** C10 on the two sample passes. *)
Lemma merge_first_occurrence_order_witness :
  well_formed passes /\
  exists g ns,
    merge_graph_data passes = Ok g /\
    nodes g = Some ns /\
    map id_of ns = first_occurrences [] (map id_of (all_nodes passes)) /\
    (forall k n, nth_error ns k = Some n ->
                 last_seen (id_of n) (all_nodes passes) = Some n).
Proof.
  split; [reflexivity|].
  apply (merge_first_occurrence_order passes). reflexivity.
Defined.



(** C5 on three passes that all fail to parse. *)
Lemma extract_survives_parse_failures_witness :
  forallb (pass_fails garbage no_parse (txt "Once upon a time"))
          (seq 0 (Z.to_nat 3)) = true /\
  fst (extract_graph_from_chunk garbage no_parse
         (txt "Once upon a time") 3) = Ok empty_graph.
Proof.
  split; [reflexivity|].
  destruct (extract_survives_parse_failures garbage no_parse
              (txt "Once upon a time") 3) as [_ [_ [_ Hall]]].
  apply Hall. reflexivity.
Defined.

(** C6 as stated fails: an ["L"] entry without ["time"] makes
    [build_l_dict] raise. *)
Lemma build_l_dict_missing_time_raises :
  build_l_dict (fresh_builder None (Some [alice_person; alice_untimed])) =
  Raise (KeyError "time").
Proof. reflexivity. Qed.

(** C6, as the code has it, on the sample builder. *)
Lemma assembler_optional_fields_witness :
  graph_data a_builder = Some extraction_output /\
  (forall rs, data_R extraction_output = Some rs ->
     forallb r_entry_ok rs = true ->
     exists G b',
       build_r_graph a_builder = Ok (G, b') /\
       map edge_attributes (nx.edges G) =
       map fact_attributes (flat_map facts_of rs)) /\
  (forall ls, data_L extraction_output = Some ls ->
     (forallb l_entry_ok ls = true ->
      exists dict b', build_l_dict a_builder = Ok (dict, b')) /\
     (forallb l_entry_ok ls = false ->
      exists k,
        build_l_dict a_builder = Raise (KeyError k) /\ In k l_entry_keys)).
Proof.
  split; [reflexivity|].
  apply (assembler_optional_fields a_builder extraction_output).
  reflexivity.
Defined.

(** C7 on the sample labels: Alice's list keeps the input order and the
    repeated (Person, 2024-01). *)
Lemma build_l_dict_keeps_input_order_witness :
  (graph_data a_builder = Some extraction_output /\
   data_L extraction_output = Some labels /\
   forallb l_entry_ok labels = true) /\
  exists dict,
    build_l_dict a_builder =
      Ok (dict, {| graph_data := graph_data a_builder;
                   R_graph_nx := R_graph_nx a_builder;
                   L_dict := Some dict |}) /\
    PyDict.keys dict = first_occurrences [] (map entity_of labels) /\
    (forall entity,
        PyDict.get entity dict =
        match observations_of entity labels with
        | [] => None
        | obs => Some obs
        end).
Proof.
  split; [repeat split; reflexivity|].
  apply (build_l_dict_keeps_input_order a_builder extraction_output labels);
    reflexivity.
Defined.

(** C8 as stated fails: an entry with both endpoints and no fact leaves
    no node in the graph. *)
Lemma build_r_graph_no_fact_no_node :
  exists G b',
    build_r_graph (fresh_builder (Some [alice_bob_no_facts]) None) =
      Ok (G, b') /\
    In alice_bob_no_facts [alice_bob_no_facts] /\
    E1 alice_bob_no_facts = Some "Alice" /\
    E2 alice_bob_no_facts = Some "Bob" /\
    nx.has_node "Alice" G = false /\ nx.has_node "Bob" G = false.
Proof.
  do 2 eexists. split; [reflexivity|]. simpl. auto 6.
Qed.

(** C8, as the code has it, on the sample builder. *)
Lemma build_r_graph_edges_and_endpoints_witness :
  (graph_data a_builder = Some extraction_output /\
   data_R extraction_output = Some [alice_bob] /\
   forallb r_entry_ok [alice_bob] = true) /\
  exists G,
    build_r_graph a_builder =
      Ok (G, {| graph_data := graph_data a_builder; R_graph_nx := Some G;
                L_dict := L_dict a_builder |}) /\
    map edge_payload (nx.edges G) = flat_map entry_facts [alice_bob] /\
    nx.number_of_edges G = List.length (flat_map facts_of [alice_bob]) /\
    (forall entry, In entry [alice_bob] -> facts_of entry <> [] ->
       is_entity (get_default (E1 entry) "") G = true /\
       is_entity (get_default (E2 entry) "") G = true) /\
    (forall e, In e (nx.edges G) ->
       is_entity (nx.source e) G = true /\
       is_entity (nx.target e) G = true).
Proof.
  split; [repeat split; reflexivity|].
  apply (build_r_graph_edges_and_endpoints a_builder extraction_output
           [alice_bob]); reflexivity.
Defined.
End OnSamples.

(* ================================================================== *)
(** * Further properties *)

(* ------------------------------------------------------------------ *)
(** ** More on chunking *)

Lemma lstrip_head (s : text) (c : ascii) (r : text) :
  lstrip s = c :: r -> is_space c = false.
Proof.
  induction s as [|a s IH]; simpl; [discriminate|].
  destruct (is_space a) eqn:E; auto.
  intros H. inversion H. now subst.
Qed.

Lemma lstrip_keep (c : ascii) (r : text) :
  is_space c = false -> lstrip (c :: r) = c :: r.
Proof. intros H. simpl. now rewrite H. Qed.

Lemma trimmed_strip (s : text) :
  truthy (strip s) = true -> trimmed (strip s) = true.
Proof.
  intros Hne. unfold trimmed. apply andb_true_intro. split.
  - destruct (rstrip_decomp (lstrip s)) as [trail [_ Hs]].
    fold (strip s) in Hs. destruct (strip s) as [|c r]; [discriminate|].
    simpl in Hs. apply lstrip_head in Hs. now rewrite Hs.
  - unfold strip, rstrip in *. rewrite rev_involutive.
    destruct (lstrip (rev (lstrip s))) as [|c r] eqn:E; [discriminate|].
    apply lstrip_head in E. now rewrite E.
Qed.

(** Whitespace around a trimmed text is all that [strip] removes. *)
Lemma strip_sandwich (lead body trail : text) :
  blank lead = true -> blank trail = true -> trimmed body = true ->
  strip (lead ++ body ++ trail) = body.
Proof.
  intros Hl Ht Hb. unfold trimmed in Hb.
  apply andb_prop in Hb as [Hhead Hlast].
  destruct body as [|c r]; [discriminate|].
  apply negb_true_iff in Hhead.
  unfold strip. rewrite (lstrip_blank_app _ _ Hl).
  change ((c :: r) ++ trail) with (c :: (r ++ trail)).
  rewrite (lstrip_keep _ _ Hhead).
  change (c :: (r ++ trail)) with ((c :: r) ++ trail).
  unfold rstrip. rewrite rev_app_distr.
  rewrite lstrip_blank_app by (now rewrite blank_rev).
  destruct (rev (c :: r)) as [|d q] eqn:E; [discriminate|].
  apply negb_true_iff in Hlast. rewrite (lstrip_keep _ _ Hlast).
  rewrite <- E. apply rev_involutive.
Qed.

Lemma strip_trimmed (s : text) : trimmed s = true -> strip s = s.
Proof.
  intros H. rewrite <- (strip_sandwich [] s [] eq_refl eq_refl H) at 2.
  simpl. now rewrite app_nil_r.
Qed.

Lemma length_strip_le (s : text) :
  (List.length (strip s) <= List.length s)%nat.
Proof.
  destruct (strip_decomp s) as [lead [trail [_ [_ Hs]]]].
  rewrite Hs at 2. rewrite !length_app. lia.
Qed.

Lemma split_loop_trimmed (max_tokens : Z) (paragraphs : list text) :
  forall chunks cur,
    forallb trimmed chunks = true ->
    forallb trimmed (fst (split_loop paragraphs max_tokens chunks cur)) = true.
Proof.
  induction paragraphs as [|para rest IH]; intros chunks cur H; simpl; auto.
  destruct (_ <? _)%Z; apply IH; auto.
  destruct (truthy (strip cur)) eqn:E; auto.
  rewrite forallb_app, H. simpl. now rewrite (trimmed_strip _ E).
Qed.

(** X1. No chunk of [split_text] is empty or starts or ends with
    whitespace. *)
Theorem split_text_chunks_trimmed (s : text) (max_tokens : Z) :
  forallb trimmed (split_text s max_tokens) = true.
Proof.
  unfold split_text.
  pose proof (split_loop_trimmed max_tokens (split_paragraphs s) [] []
                eq_refl) as H.
  destruct (split_loop (split_paragraphs s) max_tokens [] [])
    as [chunks cur].
  simpl in H. destruct (truthy (strip cur)) eqn:E; auto.
  rewrite forallb_app, H. simpl. now rewrite (trimmed_strip _ E).
Qed.

Lemma emitted_within (max_tokens : Z) (paragraphs : list text) (cur : text) :
  buffer_within max_tokens paragraphs cur ->
  truthy (strip cur) = true ->
  chunk_within max_tokens paragraphs (strip cur).
Proof.
  intros [->|[[p [Hin ->]]|[body [-> Hlen]]]] Hne.
  - discriminate.
  - right. exists p. split; auto. apply strip_app_sep.
  - left. rewrite strip_app_sep.
    pose proof (length_strip_le body). lia.
Qed.

Lemma split_loop_within (max_tokens : Z) (all_paragraphs : list text)
    (paragraphs : list text) :
  forall chunks cur,
    incl paragraphs all_paragraphs ->
    Forall (chunk_within max_tokens all_paragraphs) chunks ->
    buffer_within max_tokens all_paragraphs cur ->
    Forall (chunk_within max_tokens all_paragraphs)
           (fst (split_loop paragraphs max_tokens chunks cur)) /\
    buffer_within max_tokens all_paragraphs
           (snd (split_loop paragraphs max_tokens chunks cur)).
Proof.
  induction paragraphs as [|para rest IH]; intros chunks cur Hincl Hc Hb;
    simpl; auto.
  assert (Hrest : incl rest all_paragraphs)
    by (intros x Hx; apply Hincl; now right).
  destruct (_ <? _)%Z eqn:E.
  - apply IH; auto. right. right. exists (cur ++ para).
    split; [now rewrite <- app_assoc|].
    apply Z.ltb_lt in E. rewrite length_app. lia.
  - apply IH; auto.
    + destruct (truthy (strip cur)) eqn:Hne; auto.
      apply Forall_app. split; auto. constructor; auto.
      now apply emitted_within.
    + right. left. exists para. split; auto. apply Hincl. now left.
Qed.

(** X2. Every chunk is shorter than [max_tokens] characters, unless it is
    a single paragraph of the text, stripped: only a paragraph on its own
    can exceed the budget. *)
Theorem split_text_chunk_bound (s : text) (max_tokens : Z) :
  Forall (chunk_within max_tokens (split_paragraphs s))
         (split_text s max_tokens).
Proof.
  unfold split_text.
  destruct (split_loop_within max_tokens (split_paragraphs s)
              (split_paragraphs s) [] [] (incl_refl _)
              (Forall_nil _) (or_introl eq_refl)) as [Hc Hb].
  destruct (split_loop (split_paragraphs s) max_tokens [] [])
    as [chunks cur].
  simpl in *. destruct (truthy (strip cur)) eqn:E; auto.
  apply Forall_app. split; auto. constructor; auto.
  now apply emitted_within.
Qed.

Lemma split_loop_all_fit (max_tokens : Z) (paragraphs : list text) :
  forall chunks cur,
    (Z.of_nat (List.length (cur ++ with_separators paragraphs))
     < max_tokens + 2)%Z ->
    split_loop paragraphs max_tokens chunks cur =
    (chunks, cur ++ with_separators paragraphs).
Proof.
  induction paragraphs as [|para rest IH]; intros chunks cur Hlen; simpl.
  - now rewrite app_nil_r.
  - simpl in Hlen. rewrite !length_app in Hlen. simpl in Hlen.
    assert (E : (Z.of_nat (List.length cur) + Z.of_nat (List.length para)
                 <? max_tokens)%Z = true) by (apply Z.ltb_lt; lia).
    rewrite E, IH.
    + now rewrite <- !app_assoc.
    + rewrite !length_app. simpl. lia.
Qed.

(** X3. A text shorter than [max_tokens] gives one chunk, the stripped
    text, or none when the text is blank. *)
Theorem split_text_short_text (s : text) (max_tokens : Z) :
  (Z.of_nat (List.length s) < max_tokens)%Z ->
  split_text s max_tokens = if truthy (strip s) then [strip s] else [].
Proof.
  intros Hlen. unfold split_text. rewrite split_loop_all_fit.
  - simpl. rewrite split_paragraphs_cover, strip_app_sep.
    now destruct (truthy (strip s)).
  - simpl. rewrite split_paragraphs_cover, length_app. simpl. lia.
Qed.

Lemma split_sep_no_sep (s : text) :
  contains_sep s = false -> split_sep s = (s, []).
Proof.
  induction s as [|c s IH]; [reflexivity|].
  destruct s as [|c' s'']; [reflexivity|].
  intros H. rewrite split_sep_cons2.
  change (contains_sep (c :: c' :: s''))
    with ((Ascii.eqb c newline && Ascii.eqb c' newline)
          || contains_sep (c' :: s'')) in H.
  apply orb_false_elim in H as [Hnn Hrest].
  rewrite Hnn, (IH Hrest). reflexivity.
Qed.

(** X4. A text without the paragraph separator is never cut, however
    small [max_tokens] is: it comes back whole, stripped (or not at all
    when it is blank). *)
Theorem split_text_single_paragraph (s : text) (max_tokens : Z) :
  contains_sep s = false ->
  split_text s max_tokens = if truthy (strip s) then [strip s] else [].
Proof.
  intros H. unfold split_text, split_paragraphs.
  rewrite (split_sep_no_sep _ H). simpl.
  destruct (_ <? _)%Z; simpl; rewrite strip_app_sep;
    now destruct (truthy (strip s)).
Qed.

(* ------------------------------------------------------------------ *)
(** ** Unwrapping a fenced response *)

Lemma starts_with_app (p r : text) : starts_with p (p ++ r) = true.
Proof.
  induction p as [|c p IH]; simpl; [now destruct r|].
  now rewrite Ascii.eqb_refl.
Qed.

Lemma ends_with_app (a suffix : text) : ends_with suffix (a ++ suffix) = true.
Proof. unfold ends_with. rewrite rev_app_distr. apply starts_with_app. Qed.

Lemma skipn_prefix (p r : text) : skipn (List.length p) (p ++ r) = r.
Proof. induction p as [|c p IH]; simpl; auto. Qed.

Lemma firstn_drop_suffix (a suffix : text) :
  firstn (List.length (a ++ suffix) - List.length suffix) (a ++ suffix) = a.
Proof.
  rewrite length_app, Nat.add_sub, firstn_app, Nat.sub_diag, firstn_all.
  simpl. apply app_nil_r.
Qed.

Lemma trimmed_app3 (a m b : text) :
  trimmed a = true -> trimmed b = true -> trimmed (a ++ m ++ b) = true.
Proof.
  unfold trimmed. intros Ha Hb.
  apply andb_prop in Ha as [Ha _]. apply andb_prop in Hb as [_ Hb].
  rewrite !rev_app_distr.
  destruct (rev b) as [|d q]; [discriminate|].
  destruct a as [|c a]; [discriminate|]. simpl.
  now rewrite Ha, Hb.
Qed.

Lemma starts_with_common (p q r : text) :
  starts_with (p ++ q) (p ++ r) = starts_with q r.
Proof.
  induction p as [|c p IH]; simpl; auto. now rewrite Ascii.eqb_refl.
Qed.

Lemma plain_fence_not_json (c : ascii) (r : text) :
  is_space c = true -> starts_with fence_json (fence ++ c :: r) = false.
Proof.
  intros Hc.
  change fence_json with (fence ++ list_ascii_of_string "json").
  rewrite starts_with_common. cbn [list_ascii_of_string starts_with].
  destruct (Ascii.eqb_spec "j"%char c) as [<-|_]; [discriminate|reflexivity].
Qed.

Lemma trimmed_fence : trimmed fence = true.
Proof. reflexivity. Qed.

Lemma trimmed_fence_json : trimmed fence_json = true.
Proof. reflexivity. Qed.

(** X5. A response wrapped in a [```json] fence and a closing fence,
    with any whitespace around the fences and around the body, is
    unwrapped to exactly its body. *)
Theorem unfence_json_fence (lead ws1 body ws2 trail : text) :
  blank lead = true -> blank ws1 = true -> blank ws2 = true ->
  blank trail = true -> trimmed body = true ->
  unfence (lead ++ fence_json ++ ws1 ++ body ++ ws2 ++ fence ++ trail) = body.
Proof.
  intros Hlead H1 H2 Htrail Hbody.
  set (inner := body ++ ws2 ++ fence).
  set (wrapped := fence_json ++ ws1 ++ inner).
  assert (Hinner : trimmed inner = true)
    by (apply trimmed_app3; auto using trimmed_fence).
  assert (Hwrapped : trimmed wrapped = true).
  { unfold wrapped, inner. rewrite (app_assoc ws1), (app_assoc (ws1 ++ body)).
    apply trimmed_app3; auto using trimmed_fence, trimmed_fence_json. }
  assert (S1 : strip (lead ++ fence_json ++ ws1 ++ body ++ ws2 ++ fence
                      ++ trail) = wrapped).
  { rewrite <- (strip_sandwich lead wrapped trail Hlead Htrail Hwrapped).
    unfold wrapped, inner. now rewrite <- !app_assoc. }
  assert (S2 : strip (skipn (List.length fence_json) wrapped) = inner).
  { unfold wrapped. rewrite skipn_prefix.
    rewrite <- (strip_sandwich ws1 inner [] H1 eq_refl Hinner) at 2.
    now rewrite app_nil_r. }
  assert (S3 : strip (firstn (List.length inner - 3) inner) = body).
  { unfold inner. rewrite (app_assoc body).
    change 3%nat with (List.length fence).
    rewrite firstn_drop_suffix.
    exact (strip_sandwich [] body ws2 eq_refl H2 Hbody). }
  unfold unfence. rewrite S1.
  unfold wrapped at 1. rewrite starts_with_app. fold wrapped.
  rewrite S2.
  unfold inner at 1. rewrite (app_assoc body), ends_with_app.
  exact S3.
Qed.

(** X6. With a plain opening fence (no [json] after it, whitespace
    instead) only the closing fence is removed: the opening fence stays in
    the text handed to the parser. *)
Theorem unfence_plain_fence (lead : text) (c : ascii)
    (ws1 body ws2 trail : text) :
  blank lead = true -> blank (c :: ws1) = true -> blank ws2 = true ->
  blank trail = true -> trimmed body = true ->
  unfence (lead ++ fence ++ (c :: ws1) ++ body ++ ws2 ++ fence ++ trail) =
  fence ++ (c :: ws1) ++ body.
Proof.
  intros Hlead H1 H2 Htrail Hbody.
  set (kept := fence ++ (c :: ws1) ++ body).
  set (wrapped := kept ++ ws2 ++ fence).
  assert (Hkept : trimmed kept = true)
    by (apply trimmed_app3; auto using trimmed_fence).
  assert (Hwrapped : trimmed wrapped = true)
    by (apply trimmed_app3; auto using trimmed_fence).
  assert (S1 : strip (lead ++ fence ++ (c :: ws1) ++ body ++ ws2 ++ fence
                      ++ trail) = wrapped).
  { rewrite <- (strip_sandwich lead wrapped trail Hlead Htrail Hwrapped).
    unfold wrapped, kept. now rewrite <- !app_assoc. }
  assert (S2 : starts_with fence_json wrapped = false).
  { unfold wrapped, kept. rewrite <- !app_assoc.
    apply plain_fence_not_json.
    simpl in H1. now apply andb_prop in H1 as [H1 _]. }
  assert (S3 : strip (firstn (List.length wrapped - 3) wrapped) = kept).
  { unfold wrapped. rewrite (app_assoc kept).
    change 3%nat with (List.length fence).
    rewrite firstn_drop_suffix.
    exact (strip_sandwich [] kept ws2 eq_refl H2 Hkept). }
  unfold unfence. rewrite S1, S2.
  unfold wrapped at 1. rewrite (app_assoc kept), ends_with_app.
  exact S3.
Qed.

(* ------------------------------------------------------------------ *)
(** ** More on the merge *)

Lemma merge_nodes_raises (ns : list node) : forall d,
  forallb has_id ns = false -> merge_nodes ns d = Raise (KeyError "id").
Proof.
  induction ns as [|n ns IH]; intros d H; simpl in *; [discriminate|].
  unfold has_id in H. destruct (node_id n) as [i|]; simpl in *; auto.
Qed.

Lemma merge_loop_raises (graph_list : list graph) : forall d rels,
  forallb has_id (all_nodes graph_list) = false ->
  merge_loop graph_list d rels = Raise (KeyError "id").
Proof.
  induction graph_list as [|g rest IH]; intros d rels H; simpl in *;
    [discriminate|].
  rewrite forallb_app in H.
  destruct (forallb has_id (get_default (nodes g) [])) eqn:Hg.
  - rewrite (merge_nodes_ok _ _ Hg). simpl. apply IH. exact H.
  - now rewrite (merge_nodes_raises _ _ Hg).
Qed.

Lemma merge_graph_data_raises (graph_list : list graph) :
  forallb has_id (all_nodes graph_list) = false ->
  merge_graph_data graph_list = Raise (KeyError "id").
Proof.
  intros H. unfold merge_graph_data. now rewrite (merge_loop_raises _ _ _ H).
Qed.

(** X7. The merge fails exactly when some input node has no ["id"], and
    then with [KeyError "id"]; otherwise it returns a graph. *)
Theorem merge_graph_data_key_error (graph_list : list graph) :
  (well_formed graph_list <-> exists g, merge_graph_data graph_list = Ok g) /\
  (~ well_formed graph_list <->
   merge_graph_data graph_list = Raise (KeyError "id")).
Proof.
  unfold well_formed.
  destruct (forallb has_id (all_nodes graph_list)) eqn:E.
  - rewrite (merge_graph_data_ok _ E). split; split; intros H.
    + eexists. reflexivity.
    + reflexivity.
    + now elim H.
    + discriminate.
  - rewrite (merge_graph_data_raises _ E). split; split; intros H.
    + discriminate.
    + destruct H as [g Hg]. discriminate.
    + reflexivity.
    + discriminate.
Qed.

Lemma merge_ok_inv (graph_list : list graph) (g : graph) :
  merge_graph_data graph_list = Ok g ->
  well_formed graph_list /\
  g = {| nodes := Some (PyDict.values
                          (PyDict.update_all (keyed (all_nodes graph_list))
                                             PyDict.empty));
         relationships := Some (all_relationships graph_list) |}.
Proof.
  intros H. unfold well_formed.
  destruct (forallb has_id (all_nodes graph_list)) eqn:E.
  - rewrite (merge_graph_data_ok _ E) in H. inversion H. auto.
  - rewrite (merge_graph_data_raises _ E) in H. discriminate.
Qed.

Lemma get_not_in {V : Type} (k : string) (d : PyDict.t V) :
  ~ In k (PyDict.keys d) -> PyDict.get k d = None.
Proof.
  intros H. apply PyDictFacts.mem_false_iff in H. unfold PyDict.mem in H.
  now destruct (PyDict.get k d).
Qed.

(** Two dictionaries with the same keys in the same order and the same
    value under every key are equal. *)
Lemma dict_ext {V : Type} (d1 : PyDict.t V) : forall d2,
  NoDup (PyDict.keys d1) ->
  PyDict.keys d1 = PyDict.keys d2 ->
  (forall k, PyDict.get k d1 = PyDict.get k d2) ->
  d1 = d2.
Proof.
  induction d1 as [|[k v] d1 IH]; intros [|[k' v'] d2] Hnd Hk Hg;
    simpl in *; try discriminate; auto.
  inversion Hk; subst k'. inversion Hnd as [|? ? Hnin Hnd']; subst.
  pose proof (Hg k) as Hv. rewrite String.eqb_refl in Hv.
  inversion Hv; subst v'. f_equal. apply IH; auto.
  intros j. destruct (String.eqb j k) eqn:E.
  - apply String.eqb_eq in E. subst j.
    rewrite (get_not_in _ _ Hnin).
    symmetry. apply get_not_in. now rewrite <- H1.
  - specialize (Hg j). now rewrite E in Hg.
Qed.

Lemma last_binding_get {V : Type} (k : string) (d : PyDict.t V) :
  NoDup (PyDict.keys d) -> last_binding k d = PyDict.get k d.
Proof.
  induction d as [|[k' v] d IH]; intros Hnd; simpl in *; auto.
  inversion Hnd as [|? ? Hnin Hnd']; subst. rewrite (IH Hnd').
  destruct (String.eqb k k') eqn:E.
  - apply String.eqb_eq in E. subst k'. now rewrite (get_not_in _ _ Hnin).
  - now destruct (PyDict.get k d).
Qed.

Lemma first_occurrences_nested (l : list string) : forall seen seen0,
  first_occurrences seen (first_occurrences seen0 l) =
  first_occurrences (seen ++ seen0) l.
Proof.
  induction l as [|x l IH]; intros seen seen0; simpl; auto.
  rewrite existsb_app.
  destruct (existsb (String.eqb x) seen0) eqn:E0.
  - rewrite orb_true_r. apply IH.
  - rewrite orb_false_r. simpl.
    destruct (existsb (String.eqb x) seen) eqn:E.
    + rewrite IH. apply first_occurrences_ext. intros y.
      rewrite !in_app_iff. simpl. split; [|tauto].
      intros [H|[<-|H]]; auto. left.
      apply existsb_exists in E as [z [Hz Hxz]].
      apply String.eqb_eq in Hxz. now subst.
    + f_equal. rewrite IH. apply first_occurrences_ext. intros y.
      simpl. rewrite !in_app_iff. simpl. tauto.
Qed.

(** Inserting the merged form of a list of records does what inserting
    the records one by one does. *)
Lemma update_all_merged (ns : list node) (d : PyDict.t node) :
  NoDup (PyDict.keys d) ->
  PyDict.update_all
    (keyed (PyDict.values (PyDict.update_all (keyed ns) PyDict.empty))) d =
  PyDict.update_all (keyed ns) d.
Proof.
  intros Hnd.
  rewrite (self_keyed_values _ (merged_self_keyed ns)).
  set (m := PyDict.update_all (keyed ns) PyDict.empty).
  apply dict_ext.
  - now apply PyDictFacts.NoDup_keys_update_all.
  - rewrite !keys_update_all. f_equal.
    change (map fst m) with (PyDict.keys m).
    unfold m. rewrite keys_update_all. simpl.
    rewrite first_occurrences_nested. now rewrite app_nil_r.
  - intros k. rewrite !PyDictFacts.get_update_all.
    rewrite (last_binding_get k m (merged_NoDup ns)).
    unfold m. rewrite PyDictFacts.get_update_all. simpl.
    now destruct (last_binding k (keyed ns)).
Qed.

Lemma all_nodes_app (l1 l2 : list graph) :
  all_nodes (l1 ++ l2) = all_nodes l1 ++ all_nodes l2.
Proof. apply flat_map_app. Qed.

Lemma all_relationships_app (l1 l2 : list graph) :
  all_relationships (l1 ++ l2) = all_relationships l1 ++ all_relationships l2.
Proof. apply flat_map_app. Qed.

Lemma merged_groups_dict (groups : list (list graph)) (gs : list graph) :
  Forall2 (fun grp g => merge_graph_data grp = Ok g) groups gs ->
  forallb has_id (all_nodes gs) = true /\
  forallb has_id (all_nodes (List.concat groups)) = true /\
  all_relationships gs = all_relationships (List.concat groups) /\
  forall d, NoDup (PyDict.keys d) ->
    PyDict.update_all (keyed (all_nodes gs)) d =
    PyDict.update_all (keyed (all_nodes (List.concat groups))) d.
Proof.
  induction 1 as [|grp g groups gs Hg _ IH]; simpl.
  - repeat split; auto.
  - destruct IH as [Hwf1 [Hwf2 [Hrel Hd]]].
    apply merge_ok_inv in Hg as [Hwf ->].
    change (all_nodes (?g0 :: gs)) with
      (get_default (nodes g0) [] ++ all_nodes gs).
    change (all_relationships (?g0 :: gs)) with
      (get_default (relationships g0) [] ++ all_relationships gs).
    rewrite all_nodes_app, all_relationships_app. simpl.
    rewrite !forallb_app, Hwf1, Hwf2, Hwf, Hrel.
    rewrite (merged_values_have_id _ Hwf).
    repeat split; auto.
    intros d Hnd. unfold keyed. rewrite !map_app.
    rewrite !PyDictFacts.update_all_app.
    fold (keyed (all_nodes grp)) (keyed (all_nodes gs))
         (keyed (all_nodes (List.concat groups))).
    fold (keyed (PyDict.values
                   (PyDict.update_all (keyed (all_nodes grp)) PyDict.empty))).
    rewrite (update_all_merged _ d Hnd).
    apply Hd. now apply PyDictFacts.NoDup_keys_update_all.
Qed.

(** Merging graphs that are themselves merges gives the merge of all
    the graphs they came from. *)
Lemma merge_of_merges (groups : list (list graph)) (gs : list graph) :
  Forall2 (fun grp g => merge_graph_data grp = Ok g) groups gs ->
  merge_graph_data gs = merge_graph_data (List.concat groups) /\
  exists g, merge_graph_data gs = Ok g.
Proof.
  intros H. destruct (merged_groups_dict _ _ H) as [Hwf1 [Hwf2 [Hrel Hd]]].
  rewrite (merge_graph_data_ok _ Hwf1), (merge_graph_data_ok _ Hwf2).
  rewrite Hrel, (Hd PyDict.empty (NoDup_nil _)). split; eauto.
Qed.

(** X8. Merging two merged graphs gives what merging all their inputs
    in one go gives: the merge by chunk and then across chunks loses
    nothing against a flat merge. *)
Theorem merge_graph_data_two_level (passes1 passes2 : list graph)
    (g1 g2 : graph) :
  merge_graph_data passes1 = Ok g1 ->
  merge_graph_data passes2 = Ok g2 ->
  merge_graph_data [g1; g2] = merge_graph_data (passes1 ++ passes2).
Proof.
  intros H1 H2.
  assert (H : Forall2 (fun grp g => merge_graph_data grp = Ok g)
                      [passes1; passes2] [g1; g2])
    by (repeat constructor; assumption).
  destruct (merge_of_merges _ _ H) as [Heq _].
  simpl in Heq. now rewrite app_nil_r in Heq.
Qed.

(* ------------------------------------------------------------------ *)
(** ** From chunks to the final graph *)

Section PipelineFacts.
Variable completion_at : nat -> text -> nat -> text.
Variable json_loads : text -> option graph.
Variable interrupted : nat -> bool.

(** The result of the extraction is the merge of the passes that parse;
    with none of them it is the merge of nothing, the empty graph. *)
Lemma extract_is_merge (completion : text -> nat -> text)
    (chunk_text : text) (num_repeats : Z) :
  fst (extract_graph_from_chunk completion json_loads chunk_text num_repeats)
  = merge_graph_data
      (parsed_passes completion json_loads chunk_text num_repeats).
Proof.
  unfold extract_graph_from_chunk, parsed_passes.
  rewrite extract_loop_spec. simpl app.
  now destruct (flat_map _ (seq 0 (Z.to_nat num_repeats))).
Qed.

(** X9. When the extraction of a chunk returns, every node of the passes
    that parsed has an id, the graph returned has both keys, every node in
    it has an id and no id occurs twice. *)
Theorem extract_graph_from_chunk_result (completion : text -> nat -> text)
    (chunk_text : text) (num_repeats : Z) (g : graph) :
  fst (extract_graph_from_chunk completion json_loads chunk_text
         num_repeats) = Ok g ->
  well_formed (parsed_passes completion json_loads chunk_text num_repeats) /\
  exists ns rs,
    g = {| nodes := Some ns; relationships := Some rs |} /\
    forallb has_id ns = true /\ NoDup (map id_of ns).
Proof.
  rewrite extract_is_merge.
  set (ps := parsed_passes completion json_loads chunk_text num_repeats).
  unfold well_formed.
  destruct (forallb has_id (all_nodes ps)) eqn:E.
  - rewrite (merge_graph_data_ok _ E). intros H. inversion H. split; auto.
    do 2 eexists. split; [reflexivity|]. split.
    + now apply merged_values_have_id.
    + rewrite (self_keyed_ids _ (merged_self_keyed _)). apply merged_NoDup.
  - rewrite (merge_graph_data_raises _ E). discriminate.
Qed.





End PipelineFacts.

(* ------------------------------------------------------------------ *)
(** ** More on the relationship graph *)

Lemma first_occurrences_app (l1 : list string) : forall seen l2,
  first_occurrences seen (l1 ++ l2) =
  first_occurrences seen l1 ++
  first_occurrences (seen ++ first_occurrences seen l1) l2.
Proof.
  induction l1 as [|x l1 IH]; intros seen l2; simpl.
  - now rewrite app_nil_r.
  - destruct (existsb (String.eqb x) seen) eqn:E; [apply IH|].
    simpl. f_equal. rewrite IH. f_equal.
    apply first_occurrences_ext. intros y.
    simpl. rewrite !in_app_iff. simpl. tauto.
Qed.

Lemma keys_entity_nodes (ks : list string) :
  PyDict.keys (entity_nodes ks) = ks.
Proof.
  unfold PyDict.keys, entity_nodes. rewrite map_map. simpl. apply map_id.
Qed.

Lemma get_entity_nodes (n : string) (ks : list string) :
  PyDict.get n (entity_nodes ks) =
  if existsb (String.eqb n) ks then Some entity_tag else None.
Proof.
  induction ks as [|k ks IH]; simpl; auto.
  destruct (String.eqb n k); auto.
Qed.

Lemma set_same {V : Type} (k : string) (v : V) (d : PyDict.t V) :
  PyDict.get k d = Some v -> PyDict.set k v d = d.
Proof.
  induction d as [|[k' v'] d IH]; simpl; [discriminate|].
  destruct (String.eqb k k') eqn:E.
  - intros H. inversion H. reflexivity.
  - intros H. now rewrite IH.
Qed.

Lemma add_node_entity_nodes (n : string) (G : nx.MultiDiGraph)
    (ks : list string) :
  nx.node G = entity_nodes ks ->
  nx.node (nx.add_node n entity_tag G) =
  entity_nodes (ks ++ first_occurrences ks [n]).
Proof.
  intros HG. unfold nx.add_node. simpl. rewrite HG, get_entity_nodes.
  destruct (existsb (String.eqb n) ks) eqn:E; simpl.
  - rewrite app_nil_r. apply set_same.
    rewrite get_entity_nodes, E. reflexivity.
  - rewrite PyDictFacts.set_fresh.
    + unfold entity_nodes. rewrite map_app. reflexivity.
    + rewrite keys_entity_nodes. intros Hin.
      assert (existsb (String.eqb n) ks = true); [|congruence].
      apply existsb_exists. exists n. split; auto. apply String.eqb_refl.
Qed.

(** One round of the inner loop of [build_r_graph], spelled out. *)
Lemma add_fact_exact (e1 e2 : string) (r : r_fact) (G : nx.MultiDiGraph) :
  assembled G ->
  nx.add_edge e1 e2 (fact_attr r)
    (nx.add_node e2 entity_tag (nx.add_node e1 entity_tag G)) =
  {| nx.node := nx.node (nx.add_node e2 entity_tag
                           (nx.add_node e1 entity_tag G));
     nx.edges := nx.edges G ++
                 [{| nx.source := e1; nx.target := e2;
                     nx.key := parallel_edges e1 e2 (nx.edges G);
                     nx.data := fact_attr r |}] |}.
Proof.
  intros [Hd _].
  set (G2 := nx.add_node e2 entity_tag (nx.add_node e1 entity_tag G)).
  assert (Hd2 : keys_dense G2) by (now apply keys_dense_add_node).
  assert (H1 : is_entity e1 G2 = true)
    by apply nxFacts.is_entity_add_node, nxFacts.is_entity_add_node_same.
  assert (H2 : is_entity e2 G2 = true)
    by apply nxFacts.is_entity_add_node_same.
  rewrite (nxFacts.add_edge_appends e1 e2 (fact_attr r) G2 Hd2
             (nxFacts.is_entity_has_node _ _ H1)
             (nxFacts.is_entity_has_node _ _ H2)).
  unfold nx.keydict, parallel_edges. rewrite length_map. reflexivity.
Qed.

Lemma keys_sequential_snoc (es : list nx.edge) (u v : string)
    (attr : PyDict.t string) :
  keys_sequential es ->
  keys_sequential
    (es ++ [{| nx.source := u; nx.target := v;
               nx.key := parallel_edges u v es; nx.data := attr |}]).
Proof.
  intros Hs i e Hi.
  destruct (Nat.lt_ge_cases i (List.length es)) as [Hlt|Hge].
  - rewrite nth_error_app1 in Hi by assumption.
    rewrite firstn_app.
    replace (i - List.length es)%nat with 0%nat by lia.
    simpl. rewrite app_nil_r. now apply Hs.
  - rewrite nth_error_app2 in Hi by assumption.
    destruct (i - List.length es)%nat as [|k] eqn:E.
    + simpl in Hi. inversion Hi; subst e. simpl.
      assert (i = List.length es) by lia. subst i.
      rewrite firstn_app, Nat.sub_diag, firstn_all. simpl.
      now rewrite app_nil_r.
    + simpl in Hi. destruct k; discriminate.
Qed.

(** What the loops keep beyond [assembled]: the nodes are entity nodes
    in order of first appearance, the keys count the parallel edges. *)
Lemma add_facts_exact (e1 e2 : string) (facts : list r_fact) :
  forall G ks,
    assembled G -> nx.node G = entity_nodes ks ->
    keys_sequential (nx.edges G) ->
    nx.node (add_facts e1 e2 facts G) =
      entity_nodes
        (ks ++ first_occurrences ks
                 (flat_map (fun _ : r_fact => [e1; e2]) facts)) /\
    keys_sequential (nx.edges (add_facts e1 e2 facts G)).
Proof.
  induction facts as [|r rest IH]; intros G ks HG Hn Hs.
  - simpl. now rewrite app_nil_r.
  - cbn [add_facts flat_map].
    destruct (add_fact_step e1 e2 r G HG) as [HG' _].
    cbv zeta in HG'.
    pose proof (add_fact_exact e1 e2 r G HG) as Hex.
    assert (Hn' : nx.node
              (nx.add_edge e1 e2 (fact_attr r)
                 (nx.add_node e2 entity_tag (nx.add_node e1 entity_tag G))) =
            entity_nodes (ks ++ first_occurrences ks [e1; e2])).
    { rewrite Hex. cbn [nx.node].
      rewrite (add_node_entity_nodes e2 _ _
                 (add_node_entity_nodes e1 G ks Hn)).
      rewrite <- app_assoc. f_equal. f_equal.
      change [e1; e2] with ([e1] ++ [e2]).
      now rewrite first_occurrences_app. }
    assert (Hs' : keys_sequential
              (nx.edges
                 (nx.add_edge e1 e2 (fact_attr r)
                    (nx.add_node e2 entity_tag
                       (nx.add_node e1 entity_tag G))))).
    { rewrite Hex. cbn [nx.edges]. now apply keys_sequential_snoc. }
    destruct (IH _ _ HG' Hn' Hs') as [Hnode Hseq].
    split; [|exact Hseq].
    rewrite Hnode, <- app_assoc. f_equal. f_equal.
    change (e1 :: e2 :: flat_map (fun _ : r_fact => [e1; e2]) rest)
      with ([e1; e2] ++ flat_map (fun _ : r_fact => [e1; e2]) rest).
    now rewrite first_occurrences_app.
Qed.

Lemma build_r_loop_exact (entries : list r_entry) :
  forall G ks,
    assembled G -> nx.node G = entity_nodes ks ->
    keys_sequential (nx.edges G) ->
    forallb r_entry_ok entries = true ->
    exists G',
      build_r_loop entries G = Ok G' /\
      nx.node G' =
        entity_nodes (ks ++ first_occurrences ks (fact_endpoints entries)) /\
      keys_sequential (nx.edges G').
Proof.
  induction entries as [|entry rest IH]; intros G ks HG Hn Hs Hok.
  - exists G. simpl. now rewrite app_nil_r.
  - simpl in Hok. apply andb_prop in Hok as [Hentry Hrest].
    unfold r_entry_ok in Hentry.
    cbn [build_r_loop fact_endpoints flat_map]. unfold facts_of.
    destruct (E1 entry) as [e1|]; [|discriminate].
    destruct (E2 entry) as [e2|]; [|discriminate]. simpl.
    set (facts := get_default (R_facts entry) []).
    destruct (add_facts_spec e1 e2 facts G HG) as [HG1 _].
    destruct (add_facts_exact e1 e2 facts G ks HG Hn Hs) as [Hn1 Hs1].
    destruct (IH _ _ HG1 Hn1 Hs1 Hrest) as [G' [Hrun [Hn' Hs']]].
    exists G'. split; [exact Hrun|]. split; [|exact Hs'].
    rewrite Hn', <- app_assoc. f_equal. f_equal.
    now rewrite first_occurrences_app.
Qed.

Lemma build_r_graph_exact (b : builder) (d : extraction)
    (rs : list r_entry) :
  graph_data b = Some d -> data_R d = Some rs ->
  forallb r_entry_ok rs = true ->
  exists G,
    build_r_graph b =
      Ok (G, {| graph_data := graph_data b; R_graph_nx := Some G;
                L_dict := L_dict b |}) /\
    nx.node G = entity_nodes (first_occurrences [] (fact_endpoints rs)) /\
    keys_sequential (nx.edges G).
Proof.
  intros Hd HR Hok. unfold build_r_graph. rewrite Hd, HR.
  assert (Hs0 : keys_sequential (nx.edges nx.empty)).
  { intros i e Hi. destruct i; discriminate. }
  destruct (build_r_loop_exact rs nx.empty [] assembled_empty eq_refl Hs0 Hok)
    as [G [Hrun [Hn Hs]]].
  exists G. rewrite Hrun. simpl. auto.
Qed.

(** X11. The nodes of the built graph are the endpoints of the facts and
    nothing else, each once, in the order they first appear, each with the
    single attribute [type = "entity"]. *)
Theorem build_r_graph_nodes (b : builder) (d : extraction)
    (rs : list r_entry) :
  graph_data b = Some d -> data_R d = Some rs ->
  forallb r_entry_ok rs = true ->
  exists G b',
    build_r_graph b = Ok (G, b') /\
    nx.node G =
      map (fun n => (n, [("type", "entity")]))
          (first_occurrences [] (fact_endpoints rs)).
Proof.
  intros Hd HR Hok.
  destruct (build_r_graph_exact b d rs Hd HR Hok) as [G [Hrun [Hn _]]].
  exists G. eexists. split; [exact Hrun|]. exact Hn.
Qed.

Lemma NoDup_snoc {A : Type} (l : list A) (a : A) :
  NoDup l -> ~ In a l -> NoDup (l ++ [a]).
Proof.
  intros Hnd Hnin. apply NoDup_rev in Hnd.
  rewrite <- (rev_involutive (l ++ [a])). apply NoDup_rev.
  rewrite rev_app_distr. simpl. constructor; auto. now rewrite <- in_rev.
Qed.

Lemma keys_sequential_prefix (es : list nx.edge) (x : nx.edge) :
  keys_sequential (es ++ [x]) -> keys_sequential es.
Proof.
  intros Hs i e Hi.
  assert (Hlt : (i < List.length es)%nat)
    by (apply nth_error_Some; congruence).
  specialize (Hs i e). rewrite nth_error_app1 in Hs by assumption.
  rewrite (Hs Hi), firstn_app.
  replace (i - List.length es)%nat with 0%nat by lia.
  simpl. now rewrite app_nil_r.
Qed.

Lemma parallel_edges_split (u v : string) (l1 l2 : list nx.edge)
    (e : nx.edge) :
  nx.source e = u -> nx.target e = v ->
  (parallel_edges u v l1 < parallel_edges u v (l1 ++ e :: l2))%nat.
Proof.
  intros <- <-. unfold parallel_edges.
  assert (Hj : nx.joins (nx.source e) (nx.target e) e = true)
    by (unfold nx.joins; now rewrite !String.eqb_refl).
  rewrite filter_app, length_app. cbn [filter]. rewrite Hj. simpl. lia.
Qed.

(** Sequential keys never repeat between the same two nodes. *)
Lemma keys_sequential_NoDup (es : list nx.edge) :
  keys_sequential es -> NoDup (map edge_id es).
Proof.
  induction es as [|x es IH] using rev_ind; intros Hs; [constructor|].
  rewrite map_app. simpl. apply NoDup_snoc.
  - apply IH. now apply keys_sequential_prefix with x.
  - intros Hin. apply in_map_iff in Hin as [e [Hid Hin]].
    unfold edge_id in Hid. inversion Hid as [[Hsrc Htgt Hkey]].
    apply In_nth_error in Hin as [i Hi].
    pose proof (keys_sequential_prefix _ _ Hs i e Hi) as Hke.
    assert (Hkx : nx.key x =
                  parallel_edges (nx.source x) (nx.target x) es).
    { specialize (Hs (List.length es) x).
      rewrite nth_error_app2, Nat.sub_diag in Hs by lia.
      rewrite (Hs eq_refl), firstn_app, Nat.sub_diag, firstn_all.
      simpl. now rewrite app_nil_r. }
    apply nth_error_split in Hi as [l1 [l2 [Hes Hlen]]].
    assert (Hfirst : firstn i es = l1).
    { rewrite Hes, <- Hlen, firstn_app, Nat.sub_diag, firstn_all.
      simpl. apply app_nil_r. }
    rewrite Hfirst in Hke.
    pose proof (parallel_edges_split (nx.source e) (nx.target e) l1 l2 e
                  eq_refl eq_refl) as Hlt.
    rewrite <- Hes, <- Hke, Hsrc, Htgt, <- Hkx in Hlt. lia.
Qed.

(** X12. Each edge of the built graph has for key the number of edges
    added before it between the same two nodes (0, 1, 2, ... for parallel
    edges), so no two edges share source, target and key: a later fact never
    replaces an earlier edge. *)
Theorem build_r_graph_edge_keys (b : builder) (d : extraction)
    (rs : list r_entry) :
  graph_data b = Some d -> data_R d = Some rs ->
  forallb r_entry_ok rs = true ->
  exists G b',
    build_r_graph b = Ok (G, b') /\
    (forall i e, nth_error (nx.edges G) i = Some e ->
       nx.key e =
       parallel_edges (nx.source e) (nx.target e) (firstn i (nx.edges G))) /\
    NoDup (map edge_id (nx.edges G)).
Proof.
  intros Hd HR Hok.
  destruct (build_r_graph_exact b d rs Hd HR Hok) as [G [Hrun [_ Hs]]].
  exists G. eexists. split; [exact Hrun|]. split; [exact Hs|].
  now apply keys_sequential_NoDup.
Qed.



(* ------------------------------------------------------------------ *)
(** ** More on the label dictionary *)

Lemma total_labels_set (k : string) (v : list label_entry)
    (d : PyDict.t (list label_entry)) :
  (total_labels (PyDict.set k v d)
   + List.length (get_default (PyDict.get k d) [])
   = total_labels d + List.length v)%nat.
Proof.
  unfold total_labels, PyDict.values.
  induction d as [|[k' v'] d IH]; simpl.
  - lia.
  - destruct (String.eqb k k'); simpl; lia.
Qed.

Lemma total_labels_observe (e : string) (x : label_entry)
    (d : PyDict.t (list label_entry)) :
  total_labels (observe e x d) = S (total_labels d).
Proof.
  unfold observe.
  pose proof (total_labels_set e
                (get_default (PyDict.get e d) [] ++ [x]) d) as H.
  rewrite length_app in H. simpl in H. lia.
Qed.

Lemma observe_all_counts (entries : list l_entry) : forall d,
  Forall (fun kv => snd kv <> []) d ->
  total_labels (observe_all entries d) =
    (total_labels d + List.length entries)%nat /\
  Forall (fun kv => snd kv <> []) (observe_all entries d).
Proof.
  unfold observe_all.
  induction entries as [|entry rest IH]; intros d Hd; simpl.
  - split; [lia|exact Hd].
  - destruct (IH (observe (entity_of entry) (observation entry) d))
      as [Hsum Hne].
    + apply Forall_forall. intros [k v] Hin. unfold observe in Hin.
      apply PyDictFacts.in_set_inv in Hin as [[_ ->]|Hin]; simpl.
      * now destruct (get_default (PyDict.get (entity_of entry) d) []).
      * rewrite Forall_forall in Hd. exact (Hd _ Hin).
    + split; [|exact Hne].
      rewrite Hsum, total_labels_observe. lia.
Qed.

(** X14. The dictionary holds as many (label, time) pairs in all as the
    ["L"] list has entries, as many entities as the list names, and no
    entity with an empty list. *)
Theorem build_l_dict_counts (b : builder) (d : extraction)
    (ls : list l_entry) :
  graph_data b = Some d -> data_L d = Some ls ->
  forallb l_entry_ok ls = true ->
  exists dict b',
    build_l_dict b = Ok (dict, b') /\
    total_labels dict = List.length ls /\
    List.length dict =
      List.length (first_occurrences [] (map entity_of ls)) /\
    Forall (fun kv => snd kv <> []) dict.
Proof.
  intros Hd HL Hok. unfold build_l_dict. rewrite Hd, HL.
  rewrite (build_l_loop_ok _ _ Hok). simpl.
  destruct (observe_all_counts ls [] (Forall_nil _)) as [Hsum Hne].
  do 2 eexists. split; [reflexivity|]. split; [exact Hsum|].
  split; [|exact Hne].
  rewrite <- (length_map fst). fold (PyDict.keys (observe_all ls [])).
  now rewrite keys_observe_all.
Qed.


(* ------------------------------------------------------------------ *)
(** ** More on similarity and resolution *)

Section MoreCosine.
Local Open Scope float_scope.

Lemma dot_from_undefined (a : vector) : forall b acc,
  List.length b <> List.length a ->
  dot_from acc a b = Raise (ValueError "shapes not aligned").
Proof.
  induction a as [|x a IH]; intros [|y b] acc Hlen; simpl in *;
    try reflexivity; try congruence.
  apply IH. congruence.
Qed.

Lemma dot_undefined (a b : vector) :
  List.length b <> List.length a ->
  dot a b = Raise (ValueError "shapes not aligned").
Proof. apply dot_from_undefined. Qed.

Lemma dot_from_comm (a : vector) : forall b acc,
  dot_from acc a b = dot_from acc b a.
Proof.
  induction a as [|x a IH]; intros [|y b] acc; simpl; auto.
  now rewrite (float_mul_comm x y).
Qed.

Lemma dot_comm (a b : vector) : dot a b = dot b a.
Proof. apply dot_from_comm. Qed.

(** X16. [cosine_similarity] has a value exactly when the two vectors
    have the same length, and raises [ValueError] exactly when they do
    not, whatever the numbers in them. *)
Theorem cosine_similarity_value_error (a b : vector) :
  (List.length b = List.length a <->
   exists s, cosine_similarity a b = Ok s) /\
  (List.length b <> List.length a <->
   cosine_similarity a b = Raise (ValueError "shapes not aligned")).
Proof.
  assert (Hbad : List.length b <> List.length a ->
                 cosine_similarity a b =
                 Raise (ValueError "shapes not aligned")).
  { intros Hlen. unfold cosine_similarity.
    now rewrite (dot_undefined a b Hlen). }
  split; split.
  - apply cosine_defined.
  - intros [s Hs].
    destruct (Nat.eq_dec (List.length b) (List.length a)) as [|Hne]; auto.
    rewrite (Hbad Hne) in Hs. discriminate.
  - exact Hbad.
  - intros H Hlen. destruct (cosine_defined a b Hlen) as [s Hs]. congruence.
Qed.

(** X17. The similarity does not depend on the order of its arguments,
    the error case included. *)
Theorem cosine_similarity_symmetric (a b : vector) :
  cosine_similarity a b = cosine_similarity b a.
Proof.
  unfold cosine_similarity. rewrite (dot_comm a b).
  destruct (dot b a) as [d|e]; simpl; auto.
  now rewrite (float_mul_comm (norm a) (norm b)).
Qed.
End MoreCosine.

Section MoreResolver.
Local Open Scope float_scope.
Variable embed_text : text -> vector.

(** What the scan ends on is what it started with or an entry of the
    index with its similarity. *)
Lemma scan_index_origin (query_emb : vector) (index : list index_item) :
  forall best_name best_score name score,
    scan_index query_emb index best_name best_score = Ok (name, score) ->
    (name = best_name /\ score = best_score) \/
    (exists item,
        In item index /\ name = Some (item_name item) /\
        cosine_similarity query_emb (item_embedding item) = Ok score).
Proof.
  induction index as [|item rest IH]; intros bn bs name score H.
  - simpl in H. inversion H. auto.
  - cbn [scan_index] in H.
    destruct (cosine_similarity query_emb (item_embedding item))
      as [sim|e] eqn:Hsim; [|discriminate].
    cbn [bind] in H.
    destruct (bs <? sim).
    + apply IH in H as [[-> ->]|[it [Hin [Hn Hs]]]].
      * right. exists item. simpl. auto.
      * right. exists it. simpl. auto.
    + apply IH in H as [[-> ->]|[it [Hin [Hn Hs]]]]; auto.
      right. exists it. simpl. auto.
Qed.

(** X19. A name returned by the resolver is the name of an entry of the
    index whose computed similarity to the question is at least the
    threshold, in the binary64 comparison the code makes: the resolver
    never makes up a name and never returns one scored below the
    threshold. *)
Theorem find_best_matching_node_sound (question_text : text)
    (index : list index_item) (threshold : float) (name : string) :
  find_best_matching_node embed_text question_text index threshold =
    Ok (Some name) ->
  exists item s,
    In item index /\ item_name item = name /\
    cosine_similarity (embed_text question_text) (item_embedding item) =
      Ok s /\
    (threshold <=? s) = true.
Proof.
  unfold find_best_matching_node.
  destruct (scan_index (embed_text question_text) index None initial_score)
    as [[bn bs]|e] eqn:Hscan; [|discriminate].
  cbn [bind fst snd].
  destruct (threshold <=? bs) eqn:Hge; [|discriminate].
  intros H. inversion H; subst bn.
  apply scan_index_origin in Hscan as [[Hn _]|[item [Hin [Hn Hs]]]];
    [discriminate|].
  inversion Hn; subst name.
  exists item, bs. repeat split; auto.
Qed.

Lemma scan_index_raises (query_emb : vector) (index : list index_item) :
  ~ same_dimension query_emb index ->
  forall best_name best_score,
    scan_index query_emb index best_name best_score =
    Raise (ValueError "shapes not aligned").
Proof.
  unfold same_dimension.
  induction index as [|item rest IH]; intros Hbad bn bs.
  - elim Hbad. constructor.
  - cbn [scan_index].
    destruct (Nat.eq_dec (List.length (item_embedding item))
                         (List.length query_emb)) as [Heq|Hne].
    + destruct (cosine_defined query_emb (item_embedding item) Heq)
        as [sim Hsim].
      rewrite Hsim. cbn [bind].
      assert (Hrest : ~ Forall
                (fun item => List.length (item_embedding item) =
                             List.length query_emb) rest).
      { intros H. apply Hbad. now constructor. }
      destruct (bs <? sim); now apply IH.
    + unfold cosine_similarity. now rewrite (dot_undefined _ _ Hne).
Qed.

(** X21. The resolver answers exactly when every embedding of the index
    has the dimension of the question's embedding; one entry of another
    dimension, wherever it stands, makes it raise [ValueError]. *)
Theorem find_best_matching_node_value_error (question_text : text)
    (index : list index_item) (threshold : float) :
  (same_dimension (embed_text question_text) index <->
   exists answer,
     find_best_matching_node embed_text question_text index threshold =
     Ok answer) /\
  (~ same_dimension (embed_text question_text) index <->
   find_best_matching_node embed_text question_text index threshold =
   Raise (ValueError "shapes not aligned")).
Proof.
  assert (Hok : same_dimension (embed_text question_text) index ->
    exists answer,
      find_best_matching_node embed_text question_text index threshold =
      Ok answer).
  { intros Hdim. unfold find_best_matching_node.
    destruct (scan_index_spec (embed_text question_text) index None
                initial_score Hdim) as [name [score [Hrun _]]].
    rewrite Hrun. cbn [bind fst snd].
    destruct (threshold <=? score); eauto. }
  assert (Hbad : ~ same_dimension (embed_text question_text) index ->
    find_best_matching_node embed_text question_text index threshold =
    Raise (ValueError "shapes not aligned")).
  { intros Hdim. unfold find_best_matching_node.
    now rewrite (scan_index_raises _ _ Hdim). }
  assert (Hdec : same_dimension (embed_text question_text) index \/
                 ~ same_dimension (embed_text question_text) index).
  { unfold same_dimension.
    destruct (Forall_dec _
      (fun item => Nat.eq_dec (List.length (item_embedding item))
                     (List.length (embed_text question_text))) index);
      auto. }
  split; split; auto.
  - intros [answer Ha]. destruct Hdec as [|Hn]; auto.
    rewrite (Hbad Hn) in Ha. discriminate.
  - intros Hn Hdim. destruct (Hok Hdim) as [answer Ha]. congruence.
Qed.
End MoreResolver.

Section ZeroVector.
Local Open Scope float_scope.

(** A finite number times zero is a zero, of either sign. *)
Lemma mul_zero_finite (x : float) :
  is_finite x = true -> x * 0 = 0 \/ x * 0 = -0.
Proof.
  unfold is_finite, is_nan, is_infinity.
  rewrite !FloatAxioms.eqb_spec, abs_spec. intros H.
  assert (Hz : exists s, Prim2SF (x * 0) = S754_zero s).
  { rewrite mul_spec. change (Prim2SF 0) with (S754_zero false).
    destruct (Prim2SF x) as [s|s| |s m e]; simpl in *;
      try discriminate; try (destruct s; discriminate); eauto. }
  destruct Hz as [[|] Hz]; [right|left]; apply Prim2SF_inj; rewrite Hz;
    reflexivity.
Qed.

Lemma dot_from_zeros (a : vector) :
  Forall (fun x => is_finite x = true) a ->
  dot_from 0 a (zeros (List.length a)) = Ok 0.
Proof.
  unfold zeros. induction 1 as [|x a Hx _ IH]; simpl; auto.
  destruct (mul_zero_finite x Hx) as [-> | ->]; exact IH.
Qed.

Lemma sum_squares_zeros (n : nat) : sum_squares (zeros n) = 0.
Proof. unfold sum_squares, zeros. induction n; simpl; auto. Qed.

Lemma norm_zeros (n : nat) : norm (zeros n) = 0.
Proof. unfold norm. now rewrite sum_squares_zeros. Qed.

(** X18. Against a zero vector of the same length the similarity is 0,
    for a vector of finite numbers whose norm is finite: the [1e-8] in the
    denominator stands in for the zero norm.  (An overflowing norm gives
    NaN instead, see [cosine_similarity_overflow].) *)
Theorem cosine_similarity_zero_vector (a : vector) :
  Forall (fun x => is_finite x = true) a ->
  is_finite (norm a) = true ->
  cosine_similarity a (zeros (List.length a)) = Ok 0 /\
  cosine_similarity (zeros (List.length a)) a = Ok 0.
Proof.
  intros Ha Hn.
  assert (H : cosine_similarity a (zeros (List.length a)) = Ok 0).
  { unfold cosine_similarity, dot. rewrite (dot_from_zeros a Ha).
    cbn [bind]. rewrite norm_zeros.
    destruct (mul_zero_finite _ Hn) as [-> | ->]; reflexivity. }
  split; [exact H|].
  rewrite <- H. unfold cosine_similarity.
  rewrite (dot_comm (zeros (List.length a)) a).
  destruct (dot a (zeros (List.length a))) as [d|e]; simpl; auto.
  now rewrite (float_mul_comm (norm (zeros (List.length a))) (norm a)).
Qed.

End ZeroVector.

(* ------------------------------------------------------------------ *)
(** ** Cleaning a generated query *)

Lemma lstrip_by_all (p : ascii -> bool) (lead rest : text) :
  forallb p lead = true -> lstrip_by p (lead ++ rest) = lstrip_by p rest.
Proof.
  induction lead as [|c lead IH]; simpl; auto.
  intros H. apply andb_prop in H as [Hc Hl]. rewrite Hc. auto.
Qed.

Lemma strip_by_sandwich (p : ascii -> bool) (lead body trail : text)
    (c d : ascii) (r q : text) :
  forallb p lead = true -> forallb p trail = true ->
  body = c :: r -> p c = false ->
  rev body = d :: q -> p d = false ->
  strip_by p (lead ++ body ++ trail) = body.
Proof.
  intros Hl Ht Hb Hc Hr Hd. unfold strip_by.
  rewrite (lstrip_by_all p lead _ Hl). rewrite Hb at 1. simpl. rewrite Hc.
  change (c :: r ++ trail) with ((c :: r) ++ trail). rewrite <- Hb.
  rewrite rev_app_distr, lstrip_by_all.
  - rewrite Hr. simpl. rewrite Hd. rewrite <- Hr. apply rev_involutive.
  - rewrite forallb_forall in *. intros x Hx. apply Ht. now apply in_rev.
Qed.

Lemma splitlines_from_line (l : text) : forall cur rest,
  one_line l = true ->
  splitlines_from cur (l ++ newline :: rest) =
  (rev cur ++ l) :: splitlines_from [] rest.
Proof.
  induction l as [|c l IH]; intros cur rest Hl.
  - rewrite app_nil_r. cbn [app splitlines_from].
    change (is_linebreak newline) with true. cbv iota.
    destruct rest as [|c' s'']; reflexivity.
  - simpl in Hl. apply andb_prop in Hl as [Hc Hl].
    apply negb_true_iff in Hc.
    cbn [app splitlines_from]. rewrite Hc, (IH _ _ Hl). simpl.
    now rewrite <- app_assoc.
Qed.

(** Lines without a boundary inside, each ended by a line feed, are what
    [splitlines] gives back. *)
Lemma splitlines_terminated (lines : list text) :
  Forall (fun l => one_line l = true) lines ->
  splitlines (flat_map (fun l => l ++ [newline]) lines) = lines.
Proof.
  unfold splitlines. induction 1 as [|l lines Hl _ IH]; [reflexivity|].
  cbn [flat_map]. rewrite <- app_assoc. cbn [app].
  rewrite (splitlines_from_line l [] _ Hl), IH. reflexivity.
Qed.

Lemma join_cons (sep x : text) (rest : list text) :
  rest <> [] -> join sep (x :: rest) = x ++ sep ++ join sep rest.
Proof. destruct rest; [congruence|reflexivity]. Qed.

Lemma join_terminated (lines : list text) :
  lines <> [] ->
  join [newline] lines ++ [newline] =
  flat_map (fun l => l ++ [newline]) lines.
Proof.
  induction lines as [|l lines IH]; [congruence|]. intros _.
  destruct lines as [|l' lines]; [simpl; now rewrite app_nil_r|].
  assert (H : join [newline] (l' :: lines) ++ [newline] =
              flat_map (fun l => l ++ [newline]) (l' :: lines))
    by (apply IH; discriminate).
  rewrite join_cons by discriminate.
  change (flat_map (fun l => l ++ [newline]) (l :: l' :: lines))
    with ((l ++ [newline]) ++
          flat_map (fun l => l ++ [newline]) (l' :: lines)).
  rewrite <- H. now rewrite <- !app_assoc.
Qed.

Lemma join_snoc (sep x : text) (front : list text) :
  front <> [] -> join sep (front ++ [x]) = join sep front ++ sep ++ x.
Proof.
  induction front as [|y front IH]; [congruence|]. intros _.
  destruct front as [|z front]; [reflexivity|].
  change ((y :: z :: front) ++ [x]) with (y :: ((z :: front) ++ [x])).
  rewrite join_cons by (destruct front; discriminate).
  rewrite IH by discriminate.
  rewrite (join_cons sep y (z :: front)) by discriminate.
  now rewrite <- !app_assoc.
Qed.

Lemma trimmed_last (s : text) :
  trimmed s = true -> exists d q, rev s = d :: q /\ is_space d = false.
Proof.
  unfold trimmed. intros H. apply andb_prop in H as [_ H].
  destruct (rev s) as [|d q]; [discriminate|].
  exists d, q. split; auto. now apply negb_true_iff.
Qed.

(** The last line of a trimmed text is not blank. *)
Lemma last_line_not_blank (lines : list text) (final : text)
    (before : list text) :
  rev lines = final :: before ->
  trimmed (join [newline] lines) = true ->
  truthy (strip final) = true.
Proof.
  intros Hrev Htrim.
  assert (Hlines : lines = rev before ++ [final]).
  { rewrite <- (rev_involutive lines), Hrev. reflexivity. }
  destruct (truthy (strip final)) eqn:E; auto. exfalso.
  apply strip_falsy_blank in E.
  destruct (trimmed_last _ Htrim) as [d [q [Hq Hd]]].
  assert (Hsp : is_space d = true); [|congruence].
  destruct (rev before) as [|f front] eqn:Hfront.
  - simpl in Hlines. subst lines. simpl in Hq.
    rewrite <- blank_rev in E. rewrite Hq in E. simpl in E.
    now apply andb_prop in E as [E _].
  - rewrite Hlines, join_snoc in Hq by discriminate.
    rewrite !rev_app_distr in Hq.
    destruct (rev final) as [|c r] eqn:Hf.
    + simpl in Hq. inversion Hq. reflexivity.
    + rewrite <- blank_rev, Hf in E. simpl in E, Hq.
      inversion Hq; subst. now apply andb_prop in E as [E _].
Qed.

Lemma fenced_layout (tag : text) (lines : list text) :
  lines <> [] ->
  fenced tag lines =
  fence ++ flat_map (fun l => l ++ [newline]) (tag :: lines) ++ fence.
Proof.
  intros Hne. unfold fenced. cbn [flat_map].
  rewrite <- (join_terminated lines Hne).
  rewrite <- !app_assoc. reflexivity.
Qed.

(** What [clean_cypher_query] makes of a fenced answer. *)
Lemma clean_fenced (tag : text) (lines : list text) :
  one_line tag = true -> head_plain tag = true ->
  Forall (fun l => one_line l = true) lines -> lines <> [] ->
  trimmed (join [newline] lines) = true ->
  clean_cypher_query (fenced tag lines) =
  strip (if is_language_tag tag
         then join [newline] lines
         else tag ++ newline :: join [newline] lines).
Proof.
  intros Htag Hplain Hlines Hne Htrim.
  set (body := flat_map (fun l => l ++ [newline]) (tag :: lines)).
  assert (Hstart : starts_with fence (fenced tag lines) = true)
    by (unfold fenced; apply starts_with_app).
  assert (Hhead : exists c r, body = c :: r /\ is_backtick c = false).
  { unfold body. cbn [flat_map]. destruct tag as [|c tag].
    - simpl. eauto.
    - simpl in Hplain. apply negb_true_iff in Hplain. simpl. eauto. }
  assert (Hlast : exists d q, rev body = d :: q /\ is_backtick d = false).
  { unfold body. rewrite <- (join_terminated (tag :: lines)) by discriminate.
    rewrite rev_app_distr. simpl. eauto. }
  destruct Hhead as [c [r [Hb Hc]]]. destruct Hlast as [d [q [Hr Hd]]].
  assert (Hstrip : strip_by is_backtick (fenced tag lines) = body).
  { rewrite (fenced_layout tag lines Hne). fold body.
    apply (strip_by_sandwich is_backtick fence body fence c d r q);
      auto. }
  assert (Hsplit : splitlines body = tag :: lines).
  { apply splitlines_terminated. constructor; auto. }
  destruct (rev lines) as [|final before] eqn:Hrev.
  { apply (f_equal (@rev text)) in Hrev. rewrite rev_involutive in Hrev.
    simpl in Hrev. congruence. }
  pose proof (last_line_not_blank lines final before Hrev Htrim) as Hfinal.
  unfold clean_cypher_query. rewrite Hstart, Hstrip, Hsplit.
  destruct (is_language_tag tag).
  - now rewrite Hrev, Hfinal.
  - cbn [rev]. rewrite Hrev. cbn [app]. rewrite Hfinal.
    now rewrite join_cons by assumption.
Qed.

Lemma text_eqb_eq (a b : text) : text_eqb a b = true -> a = b.
Proof.
  unfold text_eqb.
  destruct (list_eq_dec Ascii.ascii_dec a b); [auto|discriminate].
Qed.

Lemma is_language_tag_inv (tag : text) :
  is_language_tag tag = true -> In (lower tag) language_tags.
Proof.
  unfold is_language_tag. intros H.
  apply existsb_exists in H as [t [Hin Heq]].
  apply text_eqb_eq in Heq. now subst t.
Qed.

Lemma lower_space (c : ascii) : is_space c = true -> lower_char c = c.
Proof.
  destruct c as [[] [] [] [] [] [] [] []]; vm_compute; intros H;
    try reflexivity; discriminate H.
Qed.

Lemma language_tag_plain (tag : text) :
  is_language_tag tag = true -> head_plain tag = true.
Proof.
  intros H. apply is_language_tag_inv in H.
  destruct tag as [|c tag]; [reflexivity|]. cbn [head_plain].
  unfold is_backtick.
  destruct (Ascii.eqb_spec c backtick) as [->|]; [|reflexivity].
  cbn [lower map] in H. change (lower_char backtick) with backtick in H.
  unfold language_tags in H. cbn [map In list_ascii_of_string] in H.
  destruct H as [H|[H|[H|[]]]]; discriminate H.
Qed.

Lemma blank_plain (tag : text) : blank tag = true -> head_plain tag = true.
Proof.
  destruct tag as [|c tag]; [reflexivity|]. cbn [head_plain blank forallb].
  intros H. apply andb_prop in H as [Hc _].
  unfold is_backtick.
  destruct (Ascii.eqb_spec c backtick) as [->|]; [discriminate|reflexivity].
Qed.

Lemma blank_not_tag (tag : text) :
  blank tag = true -> is_language_tag tag = false.
Proof.
  intros Hb. destruct (is_language_tag tag) eqn:E; [|reflexivity].
  exfalso. apply is_language_tag_inv in E.
  unfold language_tags in E. cbn [map In list_ascii_of_string] in E.
  destruct tag as [|c tag].
  - destruct E as [H|[H|[H|[]]]]; discriminate H.
  - cbn [blank forallb] in Hb. apply andb_prop in Hb as [Hc _].
    cbn [lower map] in E. rewrite (lower_space c Hc) in E.
    destruct E as [H|[H|[H|[]]]]; inversion H; subst c; discriminate Hc.
Qed.

(** X22. A query fenced on lines of their own, the opening fence followed
    by nothing, by whitespace or by [cypher], [python] or [sql] in any
    letter case, comes back as exactly its body. *)
Theorem clean_cypher_query_fenced (tag : text) (lines : list text) :
  one_line tag = true ->
  is_language_tag tag = true \/ blank tag = true ->
  Forall (fun l => one_line l = true) lines -> lines <> [] ->
  trimmed (join [newline] lines) = true ->
  clean_cypher_query (fenced tag lines) = join [newline] lines.
Proof.
  intros Htag Hkind Hlines Hne Htrim.
  assert (Hplain : head_plain tag = true)
    by (destruct Hkind; auto using language_tag_plain, blank_plain).
  rewrite (clean_fenced tag lines Htag Hplain Hlines Hne Htrim).
  destruct Hkind as [Hk|Hb].
  - rewrite Hk. now apply strip_trimmed.
  - rewrite (blank_not_tag _ Hb).
    change (tag ++ newline :: join [newline] lines)
      with (tag ++ [newline] ++ join [newline] lines).
    rewrite app_assoc.
    rewrite <- (app_nil_r ((tag ++ [newline]) ++ join [newline] lines)).
    rewrite <- app_assoc. apply strip_sandwich; auto.
    rewrite blank_app, Hb. reflexivity.
Qed.

(** X23. Any other word after the opening fence is not dropped: it stays
    as the first line of the query. *)
Theorem clean_cypher_query_unknown_tag (tag : text) (lines : list text) :
  one_line tag = true -> trimmed tag = true -> head_plain tag = true ->
  is_language_tag tag = false ->
  Forall (fun l => one_line l = true) lines -> lines <> [] ->
  trimmed (join [newline] lines) = true ->
  clean_cypher_query (fenced tag lines) =
  tag ++ newline :: join [newline] lines.
Proof.
  intros Htag Htrimmed Hplain Hkind Hlines Hne Htrim.
  rewrite (clean_fenced tag lines Htag Hplain Hlines Hne Htrim), Hkind.
  apply strip_trimmed.
  change (tag ++ newline :: join [newline] lines)
    with (tag ++ [newline] ++ join [newline] lines).
  now apply trimmed_app3.
Qed.

(* ------------------------------------------------------------------ *)
(** ** The provenance file *)

Section ProvenanceFacts.
Variable trace : Type.
Variable json_dump : list trace -> text.
Variable json_load : text -> result (list trace).

(** What is written can be read back, and is never the empty text. *)
Hypothesis load_dump : forall l, json_load (json_dump l) = Ok l.
Hypothesis dump_not_empty : forall l, json_dump l <> [].

Lemma save_to_json_appends (l : list trace) (data : trace) :
  save_to_json json_dump json_load data (Some (json_dump l)) =
  Ok (Some (json_dump (l ++ [data]))).
Proof.
  unfold save_to_json.
  destruct (json_dump l) as [|c s] eqn:E.
  - now apply dump_not_empty in E.
  - rewrite <- E, load_dump. reflexivity.
Qed.

Lemma save_all_appends (records : list trace) : forall l,
  save_all json_dump json_load records (Some (json_dump l)) =
  Ok (Some (json_dump (l ++ records))).
Proof.
  induction records as [|data rest IH]; intros l; simpl.
  - now rewrite app_nil_r.
  - rewrite save_to_json_appends. simpl. rewrite IH.
    now rewrite <- app_assoc.
Qed.

(** X24. Saving records one after the other onto a log keeps every
    record already there and adds the new ones in order; an absent file and
    an empty file both count as a log without records. *)
Theorem save_to_json_keeps_log (l : list trace) (data : trace)
    (rest : list trace) :
  save_all json_dump json_load (data :: rest) (Some (json_dump l)) =
    Ok (Some (json_dump (l ++ data :: rest))) /\
  save_all json_dump json_load (data :: rest) None =
    Ok (Some (json_dump (data :: rest))) /\
  save_all json_dump json_load (data :: rest) (Some []) =
    Ok (Some (json_dump (data :: rest))).
Proof.
  split; [apply save_all_appends|].
  split; simpl; apply (save_all_appends rest [data]).
Qed.
End ProvenanceFacts.

(* ------------------------------------------------------------------ *)
(** ** The further properties on the sample inputs *)

Section OnMoreSamples.
Import Samples.
Import MoreSamples.

Example clean_cypher_query_sample :
  clean_cypher_query (fenced (txt "Cypher") query_lines) =
  txt "MATCH (n)" ++ newline :: txt "RETURN n".
Proof. reflexivity. Qed.

Example clean_cypher_query_inline_fence :
  clean_cypher_query (txt "```MATCH (n) RETURN n```") =
  txt "MATCH (n) RETURN n".
Proof. reflexivity. Qed.

Example splitlines_sample :
  splitlines [ "a"%char; ascii_of_nat 13; newline; newline; "b"%char;
               ascii_of_nat 13 ] =
  [["a"%char]; []; ["b"%char]].
Proof. reflexivity. Qed.

(** X3 on a short greeting. *)
Lemma split_text_short_text_witness :
  (Z.of_nat (List.length greeting) < 100)%Z /\
  split_text greeting 100 =
  if truthy (strip greeting) then [strip greeting] else [].
Proof.
  split; [reflexivity|].
  apply (split_text_short_text greeting 100). reflexivity.
Defined.

(** X4 on a paragraph four times the budget. *)
Lemma split_text_single_paragraph_witness :
  contains_sep long_paragraph = false /\
  split_text long_paragraph 3 =
  if truthy (strip long_paragraph) then [strip long_paragraph] else [].
Proof.
  split; [reflexivity|].
  apply (split_text_single_paragraph long_paragraph 3). reflexivity.
Defined.

(** X5 on a fenced empty object. *)
Lemma unfence_json_fence_witness :
  (blank (txt " ") = true /\ blank [newline] = true /\
   blank [newline] = true /\ blank [] = true /\ trimmed json_body = true) /\
  unfence (txt " " ++ fence_json ++ [newline] ++ json_body ++ [newline]
           ++ fence ++ []) = json_body.
Proof.
  split; [repeat split; reflexivity|].
  apply (unfence_json_fence (txt " ") [newline] json_body [newline] []);
    reflexivity.
Defined.

(** X6 on the same object in a plain fence. *)
Lemma unfence_plain_fence_witness :
  (blank (txt " ") = true /\ blank [newline] = true /\
   blank [newline] = true /\ blank [] = true /\ trimmed json_body = true) /\
  unfence (txt " " ++ fence ++ [newline] ++ json_body ++ [newline]
           ++ fence ++ []) = fence ++ [newline] ++ json_body.
Proof.
  split; [repeat split; reflexivity|].
  apply (unfence_plain_fence (txt " ") newline [] json_body [newline] []);
    reflexivity.
Defined.

(** X8 on the two sample passes and a third graph. *)
Lemma merge_graph_data_two_level_witness :
  (merge_graph_data passes = Ok merged_passes /\
   merge_graph_data [pass1] = Ok pass1) /\
  merge_graph_data [merged_passes; pass1] =
  merge_graph_data (passes ++ [pass1]).
Proof.
  split; [split; reflexivity|].
  apply (merge_graph_data_two_level passes [pass1] merged_passes pass1);
    reflexivity.
Defined.

(** X11 on the sample builder. *)
Lemma build_r_graph_nodes_witness :
  (graph_data a_builder = Some extraction_output /\
   data_R extraction_output = Some [alice_bob] /\
   forallb r_entry_ok [alice_bob] = true) /\
  exists G b',
    build_r_graph a_builder = Ok (G, b') /\
    nx.node G =
      map (fun n => (n, [("type", "entity")]))
          (first_occurrences [] (fact_endpoints [alice_bob])).
Proof.
  split; [repeat split; reflexivity|].
  apply (build_r_graph_nodes a_builder extraction_output [alice_bob]);
    reflexivity.
Defined.

(** X12 on the sample builder. *)
Lemma build_r_graph_edge_keys_witness :
  (graph_data a_builder = Some extraction_output /\
   data_R extraction_output = Some [alice_bob] /\
   forallb r_entry_ok [alice_bob] = true) /\
  exists G b',
    build_r_graph a_builder = Ok (G, b') /\
    (forall i e, nth_error (nx.edges G) i = Some e ->
       nx.key e =
       parallel_edges (nx.source e) (nx.target e) (firstn i (nx.edges G))) /\
    NoDup (map edge_id (nx.edges G)).
Proof.
  split; [repeat split; reflexivity|].
  apply (build_r_graph_edge_keys a_builder extraction_output [alice_bob]);
    reflexivity.
Defined.


(** X14 on the sample labels. *)
Lemma build_l_dict_counts_witness :
  (graph_data a_builder = Some extraction_output /\
   data_L extraction_output = Some labels /\
   forallb l_entry_ok labels = true) /\
  exists dict b',
    build_l_dict a_builder = Ok (dict, b') /\
    total_labels dict = List.length labels /\
    List.length dict =
      List.length (first_occurrences [] (map entity_of labels)) /\
    Forall (fun kv => snd kv <> []) dict.
Proof.
  split; [repeat split; reflexivity|].
  apply (build_l_dict_counts a_builder extraction_output labels);
    reflexivity.
Defined.

(** X9 on two passes that both parse to the first sample pass. *)
Lemma extract_graph_from_chunk_result_witness :
  fst (extract_graph_from_chunk garbage reads_pass1
         (txt "Once upon a time") 2) = Ok pass1_twice /\
  well_formed (parsed_passes garbage reads_pass1
                 (txt "Once upon a time") 2) /\
  exists ns rs,
    pass1_twice = {| nodes := Some ns; relationships := Some rs |} /\
    forallb has_id ns = true /\ NoDup (map id_of ns).
Proof.
  split; [reflexivity|].
  apply (extract_graph_from_chunk_result reads_pass1 garbage
           (txt "Once upon a time") 2 pass1_twice).
  reflexivity.
Defined.

(** X18 on the vector (3, 4). *)
Lemma cosine_similarity_zero_vector_witness :
  (Forall (fun x => is_finite x = true) three_four /\
   is_finite (norm three_four) = true) /\
  cosine_similarity three_four (zeros 2) = Ok 0%float /\
  cosine_similarity (zeros 2) three_four = Ok 0%float.
Proof.
  assert (Ha : Forall (fun x => is_finite x = true) three_four)
    by (repeat constructor).
  assert (Hn : is_finite (norm three_four) = true) by reflexivity.
  split; [split; assumption|].
  exact (cosine_similarity_zero_vector three_four Ha Hn).
Defined.

(** X19 on the two-city index. *)
Lemma find_best_matching_node_sound_witness :
  find_best_matching_node embed_as_paris (txt "Where is the Louvre?")
    cities 0.55%float = Ok (Some "Paris") /\
  exists item s,
    In item cities /\ item_name item = "Paris" /\
    cosine_similarity (embed_as_paris (txt "Where is the Louvre?"))
      (item_embedding item) = Ok s /\
    (0.55 <=? s)%float = true.
Proof.
  split; [reflexivity|].
  apply (find_best_matching_node_sound embed_as_paris
           (txt "Where is the Louvre?") cities 0.55%float "Paris").
  reflexivity.
Defined.

(** X22 on a two-line query tagged [cypher]. *)
Lemma clean_cypher_query_fenced_witness :
  (one_line (txt "cypher") = true /\
   (is_language_tag (txt "cypher") = true \/ blank (txt "cypher") = true) /\
   Forall (fun l => one_line l = true) query_lines /\
   query_lines <> [] /\
   trimmed (join [newline] query_lines) = true) /\
  clean_cypher_query (fenced (txt "cypher") query_lines) =
  join [newline] query_lines.
Proof.
  assert (Hlines : Forall (fun l => one_line l = true) query_lines)
    by (repeat constructor).
  assert (Hne : query_lines <> []) by discriminate.
  split; [repeat split; auto|].
  apply (clean_cypher_query_fenced (txt "cypher") query_lines); auto.
Defined.

(** X23 on the same query tagged [neo4j]. *)
Lemma clean_cypher_query_unknown_tag_witness :
  (one_line (txt "neo4j") = true /\ trimmed (txt "neo4j") = true /\
   head_plain (txt "neo4j") = true /\
   is_language_tag (txt "neo4j") = false /\
   Forall (fun l => one_line l = true) query_lines /\
   query_lines <> [] /\
   trimmed (join [newline] query_lines) = true) /\
  clean_cypher_query (fenced (txt "neo4j") query_lines) =
  txt "neo4j" ++ newline :: join [newline] query_lines.
Proof.
  assert (Hlines : Forall (fun l => one_line l = true) query_lines)
    by (repeat constructor).
  assert (Hne : query_lines <> []) by discriminate.
  split; [repeat split; auto|].
  apply (clean_cypher_query_unknown_tag (txt "neo4j") query_lines); auto.
Defined.

(** X24 with the stand-in for JSON. *)
Lemma save_to_json_keeps_log_witness :
  ((forall l, load_chars (dump_chars l) = Ok l) /\
   (forall l, dump_chars l <> [])) /\
  save_all dump_chars load_chars ["b"%char; "c"%char]
    (Some (dump_chars ["a"%char])) =
    Ok (Some (dump_chars (["a"%char] ++ ["b"%char; "c"%char]))) /\
  save_all dump_chars load_chars ["b"%char; "c"%char] None =
    Ok (Some (dump_chars ["b"%char; "c"%char])) /\
  save_all dump_chars load_chars ["b"%char; "c"%char] (Some []) =
    Ok (Some (dump_chars ["b"%char; "c"%char])).
Proof.
  assert (H1 : forall l, load_chars (dump_chars l) = Ok l)
    by (intros l; reflexivity).
  assert (H2 : forall l, dump_chars l <> []) by (intros l; discriminate).
  split; [split; assumption|].
  apply (save_to_json_keeps_log ascii dump_chars load_chars H1 H2
           ["a"%char] "b"%char ["c"%char]).
Defined.
End OnMoreSamples.
